(** * nn_utils: masks, masked attention and label smoothing

    A shallow embedding of [src/gan/gen_pyt/model/nn_utils.py]:
    [length_array_to_mask_tensor], [dot_prod_attention], the class
    [LabelSmoothing], and the batch functions [input_transpose], [word2id],
    [id2word] and [to_input_variable].

    Conventions of the embedding.
    - Python integers are [Z]; Python lists are [list]; a numpy / torch
      array of rank 2 is the list of its rows.
    - A call either returns a value or raises a Python exception: [result].
    - Floating-point numbers are the type [float] below: the IEEE special
      values (two infinities, NaN) are kept, finite values are real numbers
      and the operations on them are exact (no rounding, no overflow).
    - Tensors that are mutated in place and may be shared (the [one_hot]
      buffer of [LabelSmoothing]) live in an explicit store. *)

From Stdlib Require Import ZArith Reals Lra Lia.
From stdpp Require Import base option list gmap strings.

Set Default Proof Using "Type".

(** ** Exceptions and results *)

Inductive exn : Type :=
| ValueError
| ZeroDivisionError
| IndexError
| RuntimeError.

Inductive result (A : Type) : Type :=
| Ok (a : A)
| Raise (e : exn).
Arguments Ok {A} a.
Arguments Raise {A} e.

(** Sequencing: an exception raised by the first computation is the outcome
    of the whole. *)
#[global] Instance result_bind : MBind result := λ A B k r,
  match r with
  | Ok a => k a
  | Raise e => Raise e
  end.
#[global] Instance result_ret : MRet result := λ A a, Ok a.

Definition is_ok {A} (r : result A) : Prop := ∃ a, r = Ok a.

(** ** Python builtins and numpy operations used by the mask builder *)

Module Py.

(** [max(l)]: [ValueError] on an empty sequence. *)
Definition max (l : list Z) : result Z :=
  match l with
  | [] => Raise ValueError
  | x :: xs => Ok (foldl Z.max x xs)
  end.

(** [len(l)] *)
Definition len {A} (l : list A) : Z := Z.of_nat (length l).

(** [enumerate(l)] *)
Definition enumerate {A} (l : list A) : list (nat * A) :=
  zip (seq 0 (length l)) l.

(** A slice bound [i] of a sequence of length [n], as Python clips it
    (step 1): a negative bound counts from the end, and both ends are
    clamped to the sequence. *)
Definition adjust_index (n i : Z) : Z :=
  if (i <? 0)%Z then Z.max (i + n) 0 else Z.min i n.

(** The half-open range [lo, hi) selected by [start:stop]; a missing bound
    is [None]. *)
Definition slice_bounds (n : Z) (start stop : option Z) : Z * Z :=
  (from_option (adjust_index n) 0%Z start,
   from_option (adjust_index n) n stop).

End Py.

Module Np.

(** [np.zeros((rows, cols), dtype=np.uint8)]: numpy refuses a negative
    dimension with [ValueError]. *)
Definition zeros (rows cols : Z) : result (list (list Z)) :=
  if ((rows <? 0) || (cols <? 0))%Z then Raise ValueError
  else Ok (replicate (Z.to_nat rows) (replicate (Z.to_nat cols) 0%Z)).

(** [row[start:stop] = v]: every selected position receives [v]. *)
Definition slice_assign (row : list Z) (start stop : option Z) (v : Z)
  : list Z :=
  let '(lo, hi) := Py.slice_bounds (Py.len row) start stop in
  imap (fun j x => if ((lo <=? Z.of_nat j) && (Z.of_nat j <? hi))%Z
                   then v else x) row.

End Np.

(** Device placement ([.cuda()]) does not change the contents of a tensor;
    the value model carries no device. *)
Definition to_cuda {A} (t : A) : A := t.

(** ** [length_array_to_mask_tensor] *)

(** The body of the [for i, seq_len in enumerate(length_array)] loop, with
    the array [mask] threaded through: [mask[i]] is read, the slice of that
    row is overwritten, and the row is stored back in place. *)
Fixpoint mask_loop (valid_entry_has_mask_one : bool)
    (items : list (nat * Z)) (mask : list (list Z))
  : result (list (list Z)) :=
  match items with
  | [] => Ok mask
  | (i, seq_len) :: rest =>
      match mask !! i with
      | None => Raise IndexError
      | Some row =>
          let row' :=
            if valid_entry_has_mask_one
            then Np.slice_assign row None (Some seq_len) 1%Z
            else Np.slice_assign row (Some seq_len) None 1%Z in
          mask_loop valid_entry_has_mask_one rest (<[i := row']> mask)
      end
  end.

Definition length_array_to_mask_tensor (length_array : list Z)
    (cuda : bool) (valid_entry_has_mask_one : bool)
  : result (list (list Z)) :=
  max_len ← Py.max length_array ;
  let batch_size := Py.len length_array in
  mask ← Np.zeros batch_size max_len ;
  mask ← mask_loop valid_entry_has_mask_one
            (Py.enumerate length_array) mask ;
  Ok (if cuda then to_cuda mask else mask).

(** The row written for one length by the loop body. *)
Definition mask_row (valid_entry_has_mask_one : bool) (seq_len : Z)
    (row : list Z) : list Z :=
  if valid_entry_has_mask_one
  then Np.slice_assign row None (Some seq_len) 1%Z
  else Np.slice_assign row (Some seq_len) None 1%Z.

(** Markers of the two polarities, as the specification names them. *)
Definition valid_marker (valid_entry_has_mask_one : bool) : Z :=
  if valid_entry_has_mask_one then 1%Z else 0%Z.
Definition padding_marker (valid_entry_has_mask_one : bool) : Z :=
  if valid_entry_has_mask_one then 0%Z else 1%Z.


(** ** Floating-point values

    IEEE special values are kept; a finite value is a real number and the
    arithmetic on finite values is exact.  Zero is unsigned (it behaves as
    [+0] when it divides). *)

Inductive float : Type :=
| Fin (r : R)
| PInf
| NInf
| NaN.

Module F.

Definition add (a b : float) : float :=
  match a, b with
  | NaN, _ | _, NaN => NaN
  | PInf, NInf | NInf, PInf => NaN
  | PInf, _ | _, PInf => PInf
  | NInf, _ | _, NInf => NInf
  | Fin x, Fin y => Fin (x + y)
  end.

Definition neg (a : float) : float :=
  match a with
  | Fin x => Fin (- x)
  | PInf => NInf
  | NInf => PInf
  | NaN => NaN
  end.

Definition sub (a b : float) : float := add a (neg b).

(** An infinity times (or divided by) the finite value [x]. *)
Definition scale_inf (positive : bool) (x : R) : float :=
  if Rlt_dec 0 x then (if positive then PInf else NInf)
  else if Rlt_dec x 0 then (if positive then NInf else PInf)
  else NaN.

Definition mul (a b : float) : float :=
  match a, b with
  | NaN, _ | _, NaN => NaN
  | Fin x, Fin y => Fin (x * y)
  | Fin x, PInf | PInf, Fin x => scale_inf true x
  | Fin x, NInf | NInf, Fin x => scale_inf false x
  | PInf, PInf | NInf, NInf => PInf
  | PInf, NInf | NInf, PInf => NInf
  end.

Definition div (a b : float) : float :=
  match a, b with
  | NaN, _ | _, NaN => NaN
  | Fin x, Fin y =>
      if Req_dec_T y 0 then scale_inf true x else Fin (x / y)
  | Fin _, (PInf | NInf) => Fin 0
  | PInf, Fin y => if Rlt_dec y 0 then NInf else PInf
  | NInf, Fin y => if Rlt_dec y 0 then PInf else NInf
  | (PInf | NInf), (PInf | NInf) => NaN
  end.

Definition exp (a : float) : float :=
  match a with
  | Fin x => Fin (Rtrigo_def.exp x)
  | PInf => PInf
  | NInf => Fin 0
  | NaN => NaN
  end.

Definition log (a : float) : float :=
  match a with
  | Fin x => if Rlt_dec 0 x then Fin (ln x)
             else if Rlt_dec x 0 then NaN else NInf
  | PInf => PInf
  | NInf | NaN => NaN
  end.

(** Sum of the entries of a vector. *)
Definition sum (l : list float) : float := foldr add (Fin 0) l.

Definition is_zero (a : float) : bool :=
  match a with
  | Fin x => if Req_dec_T x 0 then true else false
  | _ => false
  end.

(** [float(z)] for a Python integer. *)
Definition of_Z (z : Z) : float := Fin (IZR z).

(** Python's [a / b] on floats: a zero divisor raises. *)
Definition truediv (a b : float) : result float :=
  if is_zero b then Raise ZeroDivisionError else Ok (div a b).

End F.

(** A vector of floats, and a matrix as the list of its rows.  A tensor of
    shape (d1, ..., dk, n) is the matrix of its d1 * ... * dk rows along the
    last axis, in row-major order. *)
Abbreviation vector := (list float).
Abbreviation matrix := (list (list float)).

Definition finite (a : float) : Prop := ∃ x, a = Fin x.

(** ** Tensor operations used by [dot_prod_attention] *)

Module Torch.

Definition dot (u v : vector) : float := F.sum (zip_with F.mul u v).

Definition ncols (m : matrix) : nat := length (default [] (head m)).

Definition column (j : nat) (m : matrix) : vector :=
  map (λ row, default NaN (row !! j)) m.

Definition rectangular (m : matrix) : bool :=
  forallb (λ row, Nat.eqb (length row) (ncols m)) m.

(** [torch.bmm(a, v.unsqueeze(2)).squeeze(2)]: in every batch element the
    matrix [a[b]] (rows x k) is multiplied with the column [v[b]] (k).
    Mismatching batch sizes or inner dimensions raise. *)
Definition matvec (a : matrix) (v : vector) : result vector :=
  if forallb (λ row, Nat.eqb (length row) (length v)) a
  then Ok (map (λ row, dot row v) a)
  else Raise RuntimeError.

Definition bmm_matvec (a : list matrix) (v : list vector)
  : result (list vector) :=
  if Nat.eqb (length a) (length v)
  then mapM (λ p, matvec p.1 p.2) (zip a v)
  else Raise RuntimeError.

(** [torch.bmm(w.view(B, 1, n), e).squeeze(1)]: in every batch element the
    row [w[b]] (n) is multiplied with the matrix [e[b]] (n x d). *)
Definition vecmat (w : vector) (e : matrix) : result vector :=
  if Nat.eqb (length e) (length w) && rectangular e
  then Ok (map (λ j, dot w (column j e)) (seq 0 (ncols e)))
  else Raise RuntimeError.

Definition bmm_vecmat (w : list vector) (e : list matrix)
  : result (list vector) :=
  if Nat.eqb (length w) (length e)
  then mapM (λ p, vecmat p.1 p.2) (zip w e)
  else Raise RuntimeError.

(** [mask.bool()]: a non-zero byte is [True]. *)
Definition to_bool (mask : list (list Z)) : list (list bool) :=
  map (map (λ z, negb (Z.eqb z 0))) mask.

Definition same_shape {A B} (x : list (list A)) (y : list (list B)) : bool :=
  Nat.eqb (length x) (length y) &&
  forallb (λ p, Nat.eqb (length p.1) (length p.2)) (zip x y).

(** [t.masked_fill_(mask, value)] with a mask of the shape of [t]: the
    entries under a [True] receive [value], the others are kept. *)
Definition masked_fill (t : list vector) (mask : list (list bool))
    (value : float) : result (list vector) :=
  if same_shape t mask
  then Ok (zip_with (zip_with (λ x (m : bool), if m then value else x))
             t mask)
  else Raise RuntimeError.

(** [F.softmax(t, dim=-1)] on one row and on a matrix. *)
Definition softmax_row (row : vector) : vector :=
  let e := map F.exp row in
  map (λ x, F.div x (F.sum e)) e.

Definition softmax (t : list vector) : list vector := map softmax_row t.

End Torch.

(** ** [dot_prod_attention] *)

Definition dot_prod_attention (h_t : list vector) (src_encoding : list matrix)
    (src_encoding_att_linear : list matrix) (mask : option (list (list Z)))
  : result (list vector * list vector) :=
  att_weight ← Torch.bmm_matvec src_encoding_att_linear h_t ;
  att_weight ← match mask with
               | Some mask =>
                   Torch.masked_fill att_weight (Torch.to_bool mask) NInf
               | None => Ok att_weight
               end ;
  let att_weight := Torch.softmax att_weight in
  ctx_vec ← Torch.bmm_vecmat att_weight src_encoding ;
  Ok (ctx_vec, att_weight).

(** ** The tensor store

    Tensors that are written in place are kept in a store; a tensor is then
    the location of its storage, and a view shares the location of its
    base. *)

Abbreviation loc := nat (only parsing).
Abbreviation store := (gmap nat matrix) (only parsing).

(** A computation reads and updates the store and returns or raises. *)
Definition M (A : Type) : Type := store → result A * store.

#[global] Instance M_ret : MRet M := λ A a σ, (Ok a, σ).
#[global] Instance M_bind : MBind M := λ A B k m σ,
  match m σ with
  | (Ok a, σ') => k a σ'
  | (Raise e, σ') => (Raise e, σ')
  end.

Definition raise {A} (e : exn) : M A := λ σ, (Raise e, σ).

Definition lift {A} (r : result A) : M A := λ σ, (r, σ).

(** A new tensor: its storage is a location that is not in use. *)
Definition alloc (t : matrix) : M loc := λ σ,
  let l := fresh (dom σ) in (Ok l, <[l := t]> σ).

Definition load (l : loc) : M matrix := λ σ,
  match σ !! l with
  | Some t => (Ok t, σ)
  | None => (Raise RuntimeError, σ)
  end.

Definition write (l : loc) (t : matrix) : M unit := λ σ,
  (Ok (), <[l := t]> σ).

(** [for x in l: body(x)] *)
Fixpoint for_each {A} (l : list A) (body : A → M unit) : M unit :=
  match l with
  | [] => mret ()
  | x :: rest => _ ← body x ; for_each rest body
  end.

Module TorchRef.

(** [torch.zeros((n,))]: a new tensor of rank 1. *)
Definition zeros (n : Z) : M loc :=
  if (n <? 0)%Z then raise RuntimeError
  else alloc [replicate (Z.to_nat n) (Fin 0)].

(** [t.fill_(v)]: in place; the result is [t] itself. *)
Definition fill_ (t : loc) (v : float) : M loc :=
  rows ← load t ;
  _ ← write t (map (map (λ _, v)) rows) ;
  mret t.

(** [t[idx] = v] for [t] of rank 1: a negative index counts from the end,
    an index outside [-n, n) raises [IndexError]. *)
Definition setitem (t : loc) (idx : Z) (v : float) : M unit :=
  rows ← load t ;
  match rows with
  | [row] =>
      let n := Py.len row in
      if ((- n <=? idx) && (idx <? n))%Z
      then write t [<[Z.to_nat (if (idx <? 0)%Z then idx + n else idx)
                      := v]> row]
      else raise IndexError
  | _ => raise RuntimeError
  end.

(** [t.unsqueeze(0)]: a view, which shares the storage of [t]. *)
Definition unsqueeze0 (t : loc) : M loc := mret t.

(** [t.repeat(d1, ..., dk, 1)] for [t] of shape (1, n): a new tensor whose
    [d1 * ... * dk] rows are copies of the row of [t]; [count] is that
    product. *)
Definition repeat (t : loc) (count : nat) : M loc :=
  rows ← load t ;
  alloc (concat (replicate count rows)).

(** One row of [scatter_]: the index must lie in the row. *)
Definition scatter_row (row : vector) (idx : Z) (v : float)
  : result vector :=
  if ((0 <=? idx) && (idx <? Py.len row))%Z
  then Ok (<[Z.to_nat idx := v]> row)
  else Raise RuntimeError.

(** [t.scatter_(-1, index.unsqueeze(-1), v)]: in place, row [p] receives
    [v] at position [index[p]]; [index] has one entry per row of [t]. *)
Definition scatter_ (t : loc) (index : list Z) (v : float) : M unit :=
  rows ← load t ;
  if Nat.eqb (length index) (length rows)
  then rows' ← lift (mapM (λ p, scatter_row p.1 p.2 v) (zip rows index)) ;
       write t rows'
  else raise RuntimeError.

(** [xlogy(a, b)]: zero when [a] is zero. *)
Definition xlogy (a b : float) : float :=
  if F.is_zero a then Fin 0 else F.mul a (F.log b).

(** The pointwise term of [nn.KLDivLoss]: [y * (log y - x)]. *)
Definition kl_div_pointwise (x y : float) : float :=
  F.sub (xlogy y y) (F.mul y x).

(** [nn.KLDivLoss(reduction='none')(input, target)]: a new tensor of the
    common shape of the two arguments. *)
Definition kl_div (input : matrix) (target : loc) : M loc :=
  rows ← load target ;
  if Torch.same_shape input rows
  then alloc (zip_with (zip_with kl_div_pointwise) input rows)
  else raise RuntimeError.

(** [t.sum(dim=-1)]: a new tensor with one entry per row of [t]. *)
Definition sum_last (t : loc) : M loc :=
  rows ← load t ;
  alloc [map F.sum rows].

End TorchRef.

(** ** [LabelSmoothing] *)

Module LabelSmoothing.

(** The attributes of an instance: [self.confidence] and the registered
    buffer [self.one_hot].  ([self.criterion] is the stateless
    [TorchRef.kl_div].) *)
Record t : Type := Build {
  confidence : float;
  one_hot : loc;
}.

Definition __init__ (smoothing : float) (tgt_vocab_size : Z)
    (ignore_indices : option (list Z)) : M t :=
  let ignore_indices :=
    match ignore_indices with
    | None => []
    | Some l => l
    end in
  smoothing_value ←
    lift (F.truediv smoothing
            (F.of_Z (tgt_vocab_size - 1 - Py.len ignore_indices))) ;
  one_hot ← TorchRef.zeros tgt_vocab_size ;
  one_hot ← TorchRef.fill_ one_hot smoothing_value ;
  _ ← for_each ignore_indices
        (λ idx, TorchRef.setitem one_hot idx (Fin 0)) ;
  let confidence := F.sub (Fin 1) smoothing in
  one_hot ← TorchRef.unsqueeze0 one_hot ;
  mret (Build confidence one_hot).

(** Lines 136-138 of [forward]: the target distribution [true_dist].
    [model_prob] is given by its rows along the last axis and [target]
    has one index per row. *)
Definition true_dist (self : t) (model_prob : matrix) (target : list Z)
  : M loc :=
  let dim := length model_prob in
  true_dist ← TorchRef.repeat (one_hot self) dim ;
  _ ← TorchRef.scatter_ true_dist target (confidence self) ;
  mret true_dist.

Definition forward (self : t) (model_prob : matrix) (target : list Z)
  : M loc :=
  true_dist ← true_dist self model_prob target ;
  loss ← TorchRef.kl_div model_prob true_dist ;
  TorchRef.sum_last loss.

(** A sequence of [forward] calls on one instance. *)
Fixpoint forward_calls (self : t) (calls : list (matrix * list Z))
  : M unit :=
  match calls with
  | [] => mret ()
  | (model_prob, target) :: rest =>
      _ ← forward self model_prob target ;
      forward_calls self rest
  end.

End LabelSmoothing.

(** ** Real-valued quantities used to state the properties *)

(** The real number held by a finite float. *)
Definition real_of (a : float) : R :=
  match a with
  | Fin x => x
  | _ => 0%R
  end.

Definition Rsum (l : list R) : R := foldr Rplus 0%R l.

(** The share of one position in the softmax denominator of a masked row:
    [exp] of the raw score where the mask is 0, nothing where it is not. *)
Definition unmasked_exp (score : float) (m : Z) : R :=
  if (m =? 0)%Z then Rtrigo_def.exp (real_of score) else 0%R.

Definition unmasked_exp_sum (scores : vector) (mask : list Z) : R :=
  Rsum (zip_with unmasked_exp scores mask).

(** Entry [(b, j)] of a tensor of rank 2. *)
Definition entry {A} (t : list (list A)) (b j : nat) : option A :=
  row ← t !! b ; row !! j.

(** One row of raw scores after [masked_fill_] with [-inf]. *)
Definition masked_row (scores : vector) (mask : list Z) : vector :=
  zip_with (λ x (m : bool), if m then NInf else x) scores
    (map (λ z, negb (z =? 0)%Z) mask).

(** The position written by [one_hot[idx] = 0.] in a tensor of [n] entries. *)
Definition wrap_index (n idx : Z) : nat :=
  Z.to_nat (if (idx <? 0)%Z then idx + n else idx).

(** The template row built by [__init__]: [smoothing_value] everywhere, then
    zero at each ignored index in turn. *)
Definition template (smoothing_value : float) (tgt_vocab_size : Z)
    (ignore_indices : list Z) : vector :=
  foldl (λ row idx, <[wrap_index tgt_vocab_size idx := Fin 0]> row)
    (replicate (Z.to_nat tgt_vocab_size) smoothing_value) ignore_indices.

(** ** Frame conditions for store computations *)

(** [keeps l0 m Q]: run in a store where [l0] is allocated, [m] leaves the
    contents of [l0] as they are, and a returned value satisfies [Q]. *)
Definition keeps {A} (l0 : loc) (m : M A) (Q : A → Prop) : Prop :=
  ∀ (σ : store) (v : matrix),
    σ !! l0 = Some v →
    (m σ).2 !! l0 = Some v ∧ ∀ a, (m σ).1 = Ok a → Q a.

(** What a caller observes of a call that returns a tensor: the exception
    raised, or the contents of the returned tensor. *)
Definition outcome (r : result loc * store) : result (option matrix) :=
  match r.1 with
  | Ok l => Ok (r.2 !! l)
  | Raise e => Raise e
  end.

(** The loss computed by [forward] as a function of the contents [rows] of
    the [one_hot] buffer and of [confidence]. *)
Definition forward_value (rows : matrix) (confidence : float)
    (model_prob : matrix) (target : list Z) : result (option matrix) :=
  let true_dist := concat (replicate (length model_prob) rows) in
  if Nat.eqb (length target) (length true_dist)
  then match mapM (λ p, TorchRef.scatter_row p.1 p.2 confidence)
               (zip true_dist target) with
       | Ok true_dist =>
           if Torch.same_shape model_prob true_dist
           then Ok (Some [map F.sum
                            (zip_with (zip_with TorchRef.kl_div_pointwise)
                               model_prob true_dist)])
           else Raise RuntimeError
       | Raise e => Raise e
       end
  else Raise RuntimeError.

(** ** Tactics *)

(** Case analysis on every integer comparison of the goal. *)
Ltac zcompare :=
  repeat match goal with
    | |- context [Z.ltb ?a ?b] => destruct (Z.ltb_spec a b)
    | |- context [Z.leb ?a ?b] => destruct (Z.leb_spec a b)
    | |- context [Z.eqb ?a ?b] => destruct (Z.eqb_spec a b)
    end; simpl; try done; try lia.

(** ** Batches of sentences

    [input_transpose], [word2id], [id2word] and [to_input_variable]. *)

Module PySeq.

(** [l[i]] for an index [i >= 0]: [IndexError] outside the list. *)
Definition getitem {A} (l : list A) (i : nat) : result A :=
  match l !! i with
  | Some x => Ok x
  | None => Raise IndexError
  end.

(** [range(n)] *)
Definition range (n : Z) : list nat := seq 0 (Z.to_nat n).

End PySeq.

(** The list comprehension of line 55: row [i] of the transposed batch. *)
Definition transpose_row {A} (sents : list (list A)) (pad_token : A)
    (batch_size : Z) (i : nat) : result (list A) :=
  mapM (λ k, s ← PySeq.getitem sents k ;
             if (Z.of_nat i <? Py.len s)%Z
             then PySeq.getitem s i
             else Ok pad_token)
    (PySeq.range batch_size).

(** The loop [for i in range(max_len)] with the list [sents_t] threaded
    through. *)
Fixpoint transpose_loop {A} (sents : list (list A)) (pad_token : A)
    (batch_size : Z) (indices : list nat) (sents_t : list (list A))
  : result (list (list A)) :=
  match indices with
  | [] => Ok sents_t
  | i :: rest =>
      row ← transpose_row sents pad_token batch_size i ;
      transpose_loop sents pad_token batch_size rest (sents_t ++ [row])
  end.

Definition input_transpose {A} (sents : list (list A)) (pad_token : A)
  : result (list (list A)) :=
  max_len ← Py.max (map Py.len sents) ;
  let batch_size := Py.len sents in
  transpose_loop sents pad_token batch_size (PySeq.range max_len) [].

(** The argument of [word2id] and [id2word]: a list of words, or a list of
    lists of words; [type(sents[0]) == list] tells them apart. *)
Inductive batch (A : Type) : Type :=
| Flat (l : list A)
| Nested (l : list (list A)).
Arguments Flat {A} l.
Arguments Nested {A} l.

(** The vocabulary object.  Its class is not part of this file; the two
    accesses that the code makes, [vocab[w]] and [vocab.idxToLabel[i]], are
    its fields, and either may raise. *)
Record Vocab : Type := {
  vocab_getitem : string → result Z;
  idxToLabel_getitem : Z → result string;
}.

(** The branch of [word2id] for a list of lists.  [sents[0]] of an empty
    list raises [IndexError] before anything is looked up. *)
Definition word2id_nested (sents : list (list string)) (vocab : Vocab)
  : result (list (list Z)) :=
  match sents with
  | [] => Raise IndexError
  | _ => mapM (λ s, mapM (vocab_getitem vocab) s) sents
  end.

(** The branch of [word2id] for a list of words. *)
Definition word2id_flat (sents : list string) (vocab : Vocab)
  : result (list Z) :=
  match sents with
  | [] => Raise IndexError
  | _ => mapM (vocab_getitem vocab) sents
  end.

Definition word2id (sents : batch string) (vocab : Vocab)
  : result (batch Z) :=
  match sents with
  | Nested sents => ids ← word2id_nested sents vocab ; Ok (Nested ids)
  | Flat sents => ids ← word2id_flat sents vocab ; Ok (Flat ids)
  end.

Definition id2word_nested (sents : list (list Z)) (vocab : Vocab)
  : result (list (list string)) :=
  match sents with
  | [] => Raise IndexError
  | _ => mapM (λ s, mapM (idxToLabel_getitem vocab) s) sents
  end.

Definition id2word_flat (sents : list Z) (vocab : Vocab)
  : result (list string) :=
  match sents with
  | [] => Raise IndexError
  | _ => mapM (idxToLabel_getitem vocab) sents
  end.

Definition id2word (sents : batch Z) (vocab : Vocab)
  : result (batch string) :=
  match sents with
  | Nested sents => ws ← id2word_nested sents vocab ; Ok (Nested ws)
  | Flat sents => ws ← id2word_flat sents vocab ; Ok (Flat ws)
  end.

(** [to_input_variable]: [sequences] is a list of lists, so [word2id] takes
    its branch for lists of lists.  The tensor [torch.LongTensor(sents_t)]
    is the list of its rows. *)
Definition to_input_variable (sequences : list (list string))
    (vocab : Vocab) (cuda training append_boundary_sym : bool)
  : result (list (list Z)) :=
  let sequences :=
    if append_boundary_sym
    then map (λ seq, ["<s>"] ++ seq ++ ["</s>"]) sequences
    else sequences in
  word_ids ← word2id_nested sequences vocab ;
  pad ← vocab_getitem vocab "<pad>" ;
  sents_t ← input_transpose word_ids pad ;
  let sents_var := sents_t in
  Ok (if cuda then to_cuda sents_var else sents_var).

(** The words of a batch, and the number of its top-level entries. *)
Definition batch_words {A} (b : batch A) : list A :=
  match b with
  | Flat l => l
  | Nested l => concat l
  end.

Definition batch_length {A} (b : batch A) : nat :=
  match b with
  | Flat l => length l
  | Nested l => length l
  end.

(** The lengths of the sentences of a batch (none for a list of words). *)
Definition batch_shape {A} (b : batch A) : option (list nat) :=
  match b with
  | Flat _ => None
  | Nested l => Some (map length l)
  end.

(** A small vocabulary for examples: three special symbols, two words, and
    id 3 for every unknown word. *)
Definition example_vocab : Vocab := {|
  vocab_getitem w :=
    if String.eqb w "<pad>" then Ok 0%Z
    else if String.eqb w "<s>" then Ok 1%Z
    else if String.eqb w "</s>" then Ok 2%Z
    else if String.eqb w "the" then Ok 4%Z
    else if String.eqb w "cat" then Ok 5%Z
    else Ok 3%Z;
  idxToLabel_getitem i :=
    match i with
    | 0%Z => Ok "<pad>"
    | 1%Z => Ok "<s>"
    | 2%Z => Ok "</s>"
    | 3%Z => Ok "<unk>"
    | 4%Z => Ok "the"
    | 5%Z => Ok "cat"
    | _ => Raise IndexError
    end;
|}.

(** ** The context vector in closed form *)

(** One row of the context: the weighted sum of the rows of the encoding. *)
Definition context_row (w : vector) (e : matrix) : vector :=
  map (λ j, Torch.dot w (Torch.column j e)) (seq 0 (Torch.ncols e)).

(** The sum of [exp] over a row of scores. *)
Definition exp_sum (scores : vector) : R :=
  Rsum (map (λ a, Rtrigo_def.exp (real_of a)) scores).

(** A finite float whose value lies in [[lo, hi]]. *)
Definition within (lo hi : R) (a : float) : Prop :=
  ∃ x, a = Fin x ∧ (lo <= x <= hi)%R.

(** Column [c] of a matrix of finite entries, in real numbers. *)
Definition real_column (c : nat) (e : matrix) : list R :=
  map (λ row, real_of (default NaN (row !! c))) e.

(** The attention weights of a masked row, in real numbers. *)
Definition real_weights (scores : vector) (mask : list Z) : list R :=
  map (λ e, (e / unmasked_exp_sum scores mask)%R)
    (zip_with unmasked_exp scores mask).

(** ** The loss of one row *)

(** The loss of [forward] for one row [x] of [model_prob] and its target
    [t], given the template row [tpl] and [confidence]. *)
Definition row_loss (tpl : vector) (confidence : float) (x : vector)
    (t : Z) : float :=
  F.sum (zip_with TorchRef.kl_div_pointwise x
           (<[Z.to_nat t := confidence]> tpl)).

(** The model's log-probability [a] is the logarithm of the target
    probability [y]; where the target probability is 0 any finite value
    will do. *)
Definition log_of (a y : float) : Prop :=
  ∃ xr yr, a = Fin xr ∧ y = Fin yr ∧ (0 <= yr)%R
           ∧ ((0 < yr)%R → xr = ln yr).

(** A negative index counted from the end of a list of [n] entries. *)
Definition wrap (n idx : Z) : Z := if (idx <? 0)%Z then (idx + n)%Z else idx.

(** * Examples of the mask builder *)

Example mask_example_default :
  length_array_to_mask_tensor [3; 1]%Z false false
  = Ok [[0; 0; 0]; [0; 1; 1]]%Z.
Proof. reflexivity. Qed.

Example mask_example_valid_one :
  length_array_to_mask_tensor [3; 1]%Z false true
  = Ok [[1; 1; 1]; [1; 0; 0]]%Z.
Proof. reflexivity. Qed.

Example mask_example_zero_length :
  length_array_to_mask_tensor [3; 0]%Z false false
  = Ok [[0; 0; 0]; [1; 1; 1]]%Z.
Proof. reflexivity. Qed.

Example mask_example_negative_length :
  length_array_to_mask_tensor [3; -1]%Z false false
  = Ok [[0; 0; 0]; [0; 0; 1]]%Z.
Proof. reflexivity. Qed.

Example mask_example_empty :
  length_array_to_mask_tensor [] false false = Raise ValueError.
Proof. reflexivity. Qed.

Example mask_example_all_negative :
  length_array_to_mask_tensor [-2]%Z false false = Raise ValueError.
Proof. reflexivity. Qed.

(** * Properties of the mask builder *)

Section mask.
Local Open Scope Z_scope.
Implicit Types (lens : list Z) (row : list Z) (mask : list (list Z)).

Lemma slice_assign_lookup row start stop v (j : nat) :
  Np.slice_assign row start stop v !! j
  = (λ x, if (fst (Py.slice_bounds (Py.len row) start stop) <=? Z.of_nat j)
             && (Z.of_nat j <? snd (Py.slice_bounds (Py.len row) start stop))
          then v else x) <$> row !! j.
Proof.
  unfold Np.slice_assign.
  destruct (Py.slice_bounds (Py.len row) start stop) as [lo hi]; simpl.
  by rewrite list_lookup_imap.
Qed.

Lemma slice_assign_length row start stop v :
  length (Np.slice_assign row start stop v) = length row.
Proof.
  unfold Np.slice_assign.
  destruct (Py.slice_bounds _ _ _) as [lo hi]. by rewrite length_imap.
Qed.

(** On a row of zeros, [row[:l] = 1] and [row[l:] = 1] for [0 <= l <= n]. *)
Lemma mask_row_zeros (v : bool) (l n : Z) :
  0 ≤ l ≤ n →
  mask_row v l (replicate (Z.to_nat n) 0)
  = replicate (Z.to_nat l) (valid_marker v)
    ++ replicate (Z.to_nat (n - l)) (padding_marker v).
Proof.
  intros Hl. apply list_eq. intros j.
  unfold mask_row.
  destruct v; rewrite slice_assign_lookup; unfold Py.slice_bounds,
    Py.adjust_index, Py.len; simpl; rewrite length_replicate;
    destruct (Z.ltb_spec l 0) as [?|_]; try lia;
    destruct (decide (j < Z.to_nat l)%nat) as [Hj|Hj].
  - rewrite lookup_app_l by (rewrite length_replicate; lia).
    rewrite !lookup_replicate_2 by lia. simpl. zcompare.
  - rewrite lookup_app_r by (rewrite length_replicate; lia).
    rewrite length_replicate.
    destruct (decide (j < Z.to_nat n)%nat).
    + rewrite !lookup_replicate_2 by lia. simpl. zcompare.
    + rewrite !lookup_ge_None_2 by (rewrite length_replicate; lia). done.
  - rewrite lookup_app_l by (rewrite length_replicate; lia).
    rewrite !lookup_replicate_2 by lia. simpl. zcompare.
  - rewrite lookup_app_r by (rewrite length_replicate; lia).
    rewrite length_replicate.
    destruct (decide (j < Z.to_nat n)%nat).
    + rewrite !lookup_replicate_2 by lia. simpl. zcompare.
    + rewrite !lookup_ge_None_2 by (rewrite length_replicate; lia). done.
Qed.

(** The loop over [enumerate(length_array)], started at index [k]: the rows
    [k .. k + len - 1] are rewritten, each with its own length, and no
    other row is touched. *)
Lemma mask_loop_lookup v lens :
  ∀ (k : nat) mask,
    (k + length lens ≤ length mask)%nat →
    ∃ mask',
      mask_loop v (zip (seq k (length lens)) lens) mask = Ok mask'
      ∧ length mask' = length mask
      ∧ ∀ j : nat,
          mask' !! j
          = match lens !! (j - k)%nat with
            | Some l => if bool_decide (k ≤ j)%nat
                        then mask_row v l <$> mask !! j
                        else mask !! j
            | None => mask !! j
            end.
Proof.
  induction lens as [|l lens IH]; intros k mask Hlen.
  - exists mask. by repeat split.
  - simpl in Hlen. simpl.
    destruct (lookup_lt_is_Some_2 mask k) as [row Hrow]; [lia|].
    rewrite Hrow.
    destruct (IH (S k) (<[k := mask_row v l row]> mask))
      as (mask' & Hrun & Hlen' & Hlook).
    { rewrite length_insert. lia. }
    exists mask'. split; [exact Hrun|]. split.
    { by rewrite Hlen', length_insert. }
    intros j. rewrite Hlook.
    destruct (decide (j < k)%nat) as [Hlt|Hge].
    + replace (j - S k)%nat with 0%nat by lia.
      replace (j - k)%nat with 0%nat by lia. simpl.
      rewrite !bool_decide_eq_false_2 by lia.
      rewrite list_lookup_insert_ne by lia. by destruct (lens !! 0%nat).
    + destruct (decide (j = k)) as [->|Hne].
      * replace (k - S k)%nat with 0%nat by lia.
        replace (k - k)%nat with 0%nat by lia. simpl.
        rewrite bool_decide_eq_false_2 by lia.
        rewrite bool_decide_eq_true_2 by lia.
        rewrite list_lookup_insert_eq by lia. rewrite Hrow.
        by destruct (lens !! 0%nat).
      * replace (j - k)%nat with (S (j - S k)) by lia. simpl.
        rewrite list_lookup_insert_ne by lia.
        destruct (lens !! (j - S k)%nat); [|done].
        by rewrite !bool_decide_eq_true_2 by lia.
Qed.

(** Started on a fresh array of equal rows, the loop maps every length to
    its row. *)
Lemma mask_loop_enumerate v lens row :
  mask_loop v (Py.enumerate lens) (replicate (length lens) row)
  = Ok (map (λ l, mask_row v l row) lens).
Proof.
  destruct (mask_loop_lookup v lens 0 (replicate (length lens) row))
    as (mask' & Hrun & Hlen & Hlook).
  { rewrite length_replicate. lia. }
  unfold Py.enumerate. rewrite Hrun. f_equal.
  apply list_eq. intros j. rewrite Hlook, list_lookup_fmap.
  replace (j - 0)%nat with j by lia.
  destruct (lens !! j) as [l|] eqn:Hj; simpl.
  - rewrite ?bool_decide_eq_true_2 by lia.
    apply lookup_lt_Some in Hj. by rewrite lookup_replicate_2.
  - apply lookup_ge_None in Hj.
    apply lookup_ge_None_2. by rewrite length_replicate.
Qed.

(** [max] of a non-empty list is an upper bound that occurs in the list. *)
Lemma foldl_max_spec (xs : list Z) :
  ∀ x, (∀ y, y ∈ x :: xs → y ≤ foldl Z.max x xs)
       ∧ foldl Z.max x xs ∈ x :: xs.
Proof.
  induction xs as [|a xs IH]; intros x; simpl.
  - split; [|by left]. intros y Hy. apply list_elem_of_singleton in Hy. lia.
  - destruct (IH (x `max` a)) as [Hub Hin]. split.
    + intros y Hy.
      assert (x `max` a ≤ foldl Z.max (x `max` a) xs) by (apply Hub; by left).
      apply elem_of_cons in Hy as [->|Hy]; [lia|].
      apply elem_of_cons in Hy as [->|Hy]; [lia|].
      apply Hub. by right.
    + apply elem_of_cons in Hin as [Heq|Hin].
      * rewrite Heq. destruct (Z.max_spec x a) as [[_ ->]|[_ ->]].
        -- right. by left.
        -- by left.
      * right. by right.
Qed.

Lemma py_max_spec lens mx :
  Py.max lens = Ok mx → (∀ l, l ∈ lens → l ≤ mx) ∧ mx ∈ lens.
Proof.
  destruct lens as [|x xs]; simpl; [done|].
  intros [= <-]. apply foldl_max_spec.
Qed.

Lemma py_max_nonempty lens : lens ≠ [] → ∃ mx, Py.max lens = Ok mx.
Proof. destruct lens; [done|]. intros _. simpl. eauto. Qed.

(** The whole function, once the maximum is known. *)
Lemma length_array_to_mask_tensor_ok lens cuda v mx :
  Py.max lens = Ok mx → 0 ≤ mx →
  length_array_to_mask_tensor lens cuda v
  = Ok (map (λ l, mask_row v l (replicate (Z.to_nat mx) 0)) lens).
Proof.
  intros Hmax Hmx. unfold length_array_to_mask_tensor.
  rewrite Hmax. simpl. unfold Np.zeros, Py.len.
  destruct (Z.ltb_spec (Z.of_nat (length lens)) 0); [lia|].
  destruct (Z.ltb_spec mx 0); [lia|]. simpl.
  rewrite Nat2Z.id, mask_loop_enumerate. simpl.
  by destruct cuda.
Qed.

Lemma length_array_to_mask_tensor_negative lens cuda v mx :
  Py.max lens = Ok mx → mx < 0 →
  length_array_to_mask_tensor lens cuda v = Raise ValueError.
Proof.
  intros Hmax Hmx. unfold length_array_to_mask_tensor.
  rewrite Hmax. simpl. unfold Np.zeros, Py.len.
  destruct (Z.ltb_spec (Z.of_nat (length lens)) 0); [lia|].
  destruct (Z.ltb_spec mx 0); [done|lia].
Qed.

End mask.

Section mask_claims.
Local Open Scope Z_scope.
Implicit Types (lens : list Z) (mask : list (list Z)).

Lemma filter_replicate_eq (n : nat) (x y : Z) :
  length (filter (λ z, z = y) (replicate n x))
  = if decide (x = y) then n else 0%nat.
Proof.
  induction n as [|n IH]; simpl.
  - by destruct (decide (x = y)).
  - rewrite filter_cons. destruct (decide (x = y)); simpl; by rewrite IH.
Qed.

Lemma markers_differ v : valid_marker v ≠ padding_marker v.
Proof. by destruct v. Qed.

Lemma positive_max lens mx :
  Forall (λ l, 0 < l) lens → Py.max lens = Ok mx → 0 < mx.
Proof.
  intros Hpos Hmax. apply py_max_spec in Hmax as [_ Hin].
  rewrite Forall_forall in Hpos. by apply Hpos.
Qed.

(** The two polarities mark complementary positions of a row of zeros,
    whatever the length written. *)
Lemma mask_row_complement (l : Z) (n : nat) :
  Forall2 (λ a b, (a = 1 ∧ b = 0) ∨ (a = 0 ∧ b = 1))
    (mask_row true l (replicate n 0)) (mask_row false l (replicate n 0)).
Proof.
  apply Forall2_same_length_lookup. split.
  { unfold mask_row. by rewrite !slice_assign_length. }
  intros j a b. unfold mask_row. rewrite !slice_assign_lookup.
  unfold Py.slice_bounds, Py.adjust_index, Py.len. simpl.
  rewrite length_replicate.
  destruct (replicate n 0 !! j) as [z|] eqn:Hz; simpl; [|done].
  apply lookup_replicate in Hz as [-> Hj].
  intros [= <-] [= <-]. zcompare.
Qed.

(** Claim C3.  For a non-empty list of positive lengths and either
    polarity flag, the mask has one row per length and [max(lengths)]
    columns; row [i] consists of [lengths[i]] entries with the valid marker
    followed by [max(lengths) - lengths[i]] entries with the padding marker
    (so the padding is on the right, and the two markers occur exactly that
    often); [lengths = [3, 1]] with the default polarity gives
    [[0,0,0],[0,1,1]]. *)
Theorem mask_rows_right_padded lens (cuda v : bool) :
  lens ≠ [] →
  Forall (λ l, 0 < l) lens →
  ∃ (mx : Z) mask,
    Py.max lens = Ok mx
    ∧ (∀ l, l ∈ lens → l ≤ mx) ∧ mx ∈ lens
    ∧ length_array_to_mask_tensor lens cuda v = Ok mask
    ∧ length mask = length lens
    ∧ Forall (λ row, length row = Z.to_nat mx) mask
    ∧ (∀ (i : nat) (l : Z),
         lens !! i = Some l →
         ∃ row,
           mask !! i = Some row
           ∧ row = replicate (Z.to_nat l) (valid_marker v)
                   ++ replicate (Z.to_nat (mx - l)) (padding_marker v)
           ∧ length (filter (λ x, x = valid_marker v) row) = Z.to_nat l
           ∧ length (filter (λ x, x = padding_marker v) row)
             = Z.to_nat (mx - l))
    ∧ length_array_to_mask_tensor [3; 1] false false
      = Ok [[0; 0; 0]; [0; 1; 1]].
Proof.
  intros Hne Hpos.
  destruct (py_max_nonempty lens Hne) as [mx Hmax].
  pose proof (py_max_spec lens mx Hmax) as [Hub Hin].
  pose proof (positive_max lens mx Hpos Hmax) as Hmx.
  assert (Hrow : ∀ l, l ∈ lens →
    mask_row v l (replicate (Z.to_nat mx) 0)
    = replicate (Z.to_nat l) (valid_marker v)
      ++ replicate (Z.to_nat (mx - l)) (padding_marker v)).
  { intros l Hl. apply mask_row_zeros.
    rewrite Forall_forall in Hpos. specialize (Hpos l Hl).
    specialize (Hub l Hl). lia. }
  exists mx, (map (λ l, mask_row v l (replicate (Z.to_nat mx) 0)) lens).
  split; [done|]. split; [done|]. split; [done|].
  split; [apply length_array_to_mask_tensor_ok; [done|lia]|].
  split; [by rewrite length_map|].
  split.
  { apply Forall_fmap, Forall_forall. intros l Hl. simpl.
    unfold mask_row. destruct v; rewrite slice_assign_length;
      by rewrite length_replicate. }
  split; [|reflexivity].
  intros i l Hi.
  assert (Hl : l ∈ lens) by (apply list_elem_of_lookup; eauto).
  eexists. split.
  { rewrite list_lookup_fmap, Hi. simpl. by rewrite Hrow. }
  split; [done|].
  pose proof (markers_differ v) as Hdiff.
  rewrite !filter_app, !length_app, !filter_replicate_eq.
  repeat case_decide; try congruence; lia.
Qed.

Lemma mask_rows_right_padded_witness :
  [3; 1] ≠ [] ∧ Forall (λ l, 0 < l) [3; 1]
  ∧ ∃ mask, length_array_to_mask_tensor [3; 1] true true = Ok mask
            ∧ length mask = 2%nat.
Proof.
  assert (Hne : [3; 1] ≠ @nil Z) by discriminate.
  assert (Hpos : Forall (λ l, 0 < l) [3; 1]) by (repeat constructor).
  split; [exact Hne|]. split; [exact Hpos|].
  destruct (mask_rows_right_padded [3; 1] true true Hne Hpos)
    as (mx & mask & _ & _ & _ & Hrun & Hlen & _).
  exists mask. split; [exact Hrun|exact Hlen].
Defined.

(** Claim C4, as the code has it.  The function fails, with Python's
    [ValueError], exactly when [max] or [np.zeros] refuses its argument:
    when the list is empty or every length is negative.  It succeeds as
    soon as one length is at least zero, whatever the other lengths are. *)
Theorem mask_builder_failure lens (cuda v : bool) :
  (Forall (λ l, l < 0) lens →
     length_array_to_mask_tensor lens cuda v = Raise ValueError)
  ∧ (Exists (λ l, 0 ≤ l) lens →
     is_ok (length_array_to_mask_tensor lens cuda v)).
Proof.
  split.
  - intros Hneg. destruct lens as [|x xs]; [done|].
    destruct (py_max_nonempty (x :: xs)) as [mx Hmax]; [done|].
    apply (length_array_to_mask_tensor_negative _ _ _ mx Hmax).
    apply py_max_spec in Hmax as [_ Hin].
    rewrite Forall_forall in Hneg. by apply Hneg.
  - intros Hex. apply Exists_exists in Hex as (l & Hl & Hl0).
    destruct (py_max_nonempty lens) as [mx Hmax].
    { intros ->. by apply elem_of_nil in Hl. }
    eexists. apply (length_array_to_mask_tensor_ok _ _ _ mx Hmax).
    apply py_max_spec in Hmax as [Hub _]. specialize (Hub l Hl). lia.
Qed.

Lemma mask_builder_failure_witness :
  Exists (λ l, 0 ≤ l) [3; 0]
  ∧ is_ok (length_array_to_mask_tensor [3; 0] false false)
  ∧ Forall (λ l, l < 0) [-2]
  ∧ length_array_to_mask_tensor [-2] false false = Raise ValueError.
Proof.
  assert (Hex : Exists (λ l, 0 ≤ l) [3; 0]) by (left; lia).
  assert (Hall : Forall (λ l, l < 0) [-2]) by (repeat constructor).
  split; [exact Hex|].
  split; [exact (proj2 (mask_builder_failure [3; 0] false false) Hex)|].
  split; [exact Hall|].
  exact (proj1 (mask_builder_failure [-2] false false) Hall).
Defined.

(** Claim C4 as stated fails: [[3, 0]] contains a length that is not
    positive, and the call returns a mask. *)
Lemma mask_nonpositive_length_accepted :
  Exists (λ l, ¬ 0 < l) [3; 0]
  ∧ length_array_to_mask_tensor [3; 0] false false
    = Ok [[0; 0; 0]; [1; 1; 1]]
  ∧ ¬ ∃ e, length_array_to_mask_tensor [3; 0] false false = Raise e.
Proof.
  split; [right; left; lia|]. split; [reflexivity|].
  intros [e He]. discriminate He.
Qed.

(** Claim C9.  For a non-empty list of positive lengths the masks of the
    two polarities have the same shape and are complementary: at every
    position one holds 1 and the other 0. *)
Theorem mask_polarities_complementary lens (cuda : bool) :
  lens ≠ [] →
  Forall (λ l, 0 < l) lens →
  ∃ mask1 mask0,
    length_array_to_mask_tensor lens cuda true = Ok mask1
    ∧ length_array_to_mask_tensor lens cuda false = Ok mask0
    ∧ Forall2 (Forall2 (λ a b, (a = 1 ∧ b = 0) ∨ (a = 0 ∧ b = 1)))
        mask1 mask0.
Proof.
  intros Hne Hpos.
  destruct (py_max_nonempty lens Hne) as [mx Hmax].
  pose proof (positive_max lens mx Hpos Hmax) as Hmx.
  do 2 eexists.
  split; [apply (length_array_to_mask_tensor_ok _ _ _ mx Hmax); lia|].
  split; [apply (length_array_to_mask_tensor_ok _ _ _ mx Hmax); lia|].
  apply Forall2_fmap, Forall_Forall2_diag, Forall_forall.
  intros l _. apply mask_row_complement.
Qed.

Lemma mask_polarities_complementary_witness :
  [2; 3] ≠ [] ∧ Forall (λ l, 0 < l) [2; 3]
  ∧ ∃ mask1 mask0,
      length_array_to_mask_tensor [2; 3] false true = Ok mask1
      ∧ length_array_to_mask_tensor [2; 3] false false = Ok mask0
      ∧ Forall2 (Forall2 (λ a b, (a = 1 ∧ b = 0) ∨ (a = 0 ∧ b = 1)))
          mask1 mask0.
Proof.
  assert (Hne : [2; 3] ≠ @nil Z) by discriminate.
  assert (Hpos : Forall (λ l, 0 < l) [2; 3]) by (repeat constructor).
  split; [exact Hne|]. split; [exact Hpos|].
  exact (mask_polarities_complementary [2; 3] false Hne Hpos).
Defined.

End mask_claims.

(** * Properties of the attention weights *)

Section result_lemmas.
Context {A B : Type}.

Lemma mapM_ok_map (f : A → result B) (g : A → B) (l : list A) :
  Forall (λ x, f x = Ok (g x)) l → mapM f l = Ok (map g l).
Proof.
  induction 1 as [|x l Hx _ IH]; [done|].
  cbn. rewrite Hx. cbn. by rewrite IH.
Qed.

Lemma mapM_ok_inv (f : A → result B) (l : list A) (l' : list B) :
  mapM f l = Ok l' → Forall2 (λ x y, f x = Ok y) l l'.
Proof.
  revert l'. induction l as [|x l IH]; intros l'; cbn.
  - intros [= <-]. constructor.
  - destruct (f x) as [y|e] eqn:Hx; cbn; [|done].
    destruct (mapM f l) as [ys|e] eqn:Hl; cbn; [|done].
    intros [= <-]. constructor; [done|]. by apply IH.
Qed.

End result_lemmas.

Section float_lemmas.
Local Open Scope R_scope.

Lemma sum_cons (a : float) (l : vector) :
  F.sum (a :: l) = F.add a (F.sum l).
Proof. reflexivity. Qed.

Lemma sum_map_Fin (rs : list R) : F.sum (map Fin rs) = Fin (Rsum rs).
Proof.
  induction rs as [|r rs IH]; [done|].
  rewrite map_cons, sum_cons, IH. reflexivity.
Qed.

Lemma Rsum_scale (c : R) (rs : list R) :
  Rsum (map (λ r, r / c) rs) = Rsum rs / c.
Proof.
  induction rs as [|r rs IH]; simpl.
  - unfold Rdiv. by rewrite Rmult_0_l.
  - rewrite IH. unfold Rdiv. by rewrite Rmult_plus_distr_r.
Qed.

Lemma Rsum_nonneg (rs : list R) : Forall (λ r, 0 <= r) rs → 0 <= Rsum rs.
Proof.
  induction 1 as [|r rs Hr _ IH]; simpl; [apply Rle_refl|].
  by apply Rplus_le_le_0_compat.
Qed.

Lemma Rsum_pos (rs : list R) :
  Forall (λ r, 0 <= r) rs → Exists (λ r, 0 < r) rs → 0 < Rsum rs.
Proof.
  intros Hall Hex. induction Hex as [r rs Hr|r rs _ IH]; simpl.
  - apply Forall_cons in Hall as [_ Hall].
    apply Rplus_lt_le_0_compat; [done|by apply Rsum_nonneg].
  - apply Forall_cons in Hall as [Hr Hall].
    apply Rplus_le_lt_0_compat; [done|by apply IH].
Qed.

Lemma div_Fin (x s : R) : s ≠ 0 → F.div (Fin x) (Fin s) = Fin (x / s).
Proof. intros Hs. unfold F.div. by destruct (Req_dec_T s 0). Qed.

Lemma dot_finite (u v : vector) :
  Forall finite u → Forall finite v → finite (Torch.dot u v).
Proof.
  intros Hu. revert v. unfold Torch.dot.
  induction Hu as [|a u [x ->] _ IH]; intros v Hv.
  - by exists 0.
  - destruct Hv as [|b v [y ->] Hv]; [by exists 0|].
    change (zip_with F.mul (Fin x :: u) (Fin y :: v))
      with (Fin (x * y) :: zip_with F.mul u v).
    rewrite sum_cons. destruct (IH v Hv) as [z ->].
    by eexists.
Qed.

End float_lemmas.

(** * Bounds on [exp 1] *)

Section exp_bounds.
Local Open Scope R_scope.

Lemma exp_INR_mult (n : nat) (x : R) :
  Rtrigo_def.exp (INR n * x) = Rtrigo_def.exp x ^ n.
Proof.
  induction n as [|n IH].
  - simpl. rewrite Rmult_0_l. apply exp_0.
  - rewrite S_INR, Rmult_plus_distr_r, Rmult_1_l, exp_plus, IH.
    simpl. apply Rmult_comm.
Qed.

(** [(1 + x)^n <= exp (n x)], from [1 + x <= exp x]. *)
Lemma pow_le_exp (n : nat) (x : R) :
  0 <= 1 + x → (1 + x) ^ n <= Rtrigo_def.exp (INR n * x).
Proof.
  intros Hx. rewrite exp_INR_mult.
  apply pow_incr. split; [done|apply exp_ineq1_le].
Qed.

Lemma pow_ratio_IZR (a b : Z) (n : nat) :
  (IZR a / IZR b) ^ n = IZR (a ^ Z.of_nat n) / IZR (b ^ Z.of_nat n).
Proof.
  unfold Rdiv. by rewrite Rpow_mult_distr, pow_inv, !pow_IZR.
Qed.

Lemma cross_le (a b c d : R) :
  0 < b → 0 < d → a * d <= c * b → a / b <= c / d.
Proof.
  intros Hb Hd H. apply (Rmult_le_reg_r (b * d)); [nra|].
  replace (a / b * (b * d)) with (a * d) by (field; lra).
  replace (c / d * (b * d)) with (c * b) by (field; lra).
  done.
Qed.

Lemma exp_1_lower : 2716 / 1000 <= Rtrigo_def.exp 1.
Proof.
  replace 1 with (INR 1024 * (1 / 1024)) at 1.
  2:{ rewrite INR_IZR_INZ. simpl. field. }
  eapply Rle_trans; [|apply pow_le_exp; lra].
  replace (1 + 1 / 1024) with (IZR 1025 / IZR 1024) by lra.
  rewrite pow_ratio_IZR.
  apply (cross_le (IZR _) (IZR _) (IZR _) (IZR _)).
  - apply IZR_lt. lia.
  - apply IZR_lt. by vm_compute.
  - rewrite <- !mult_IZR. apply IZR_le. by vm_compute.
Qed.

Lemma exp_minus_1_lower : 3676 / 10000 <= Rtrigo_def.exp (- 1).
Proof.
  replace (- 1) with (INR 1024 * (- 1 / 1024)) at 1.
  2:{ rewrite INR_IZR_INZ. simpl. field. }
  eapply Rle_trans; [|apply pow_le_exp; lra].
  replace (1 + - 1 / 1024) with (IZR 1023 / IZR 1024) by lra.
  rewrite pow_ratio_IZR.
  apply (cross_le (IZR _) (IZR _) (IZR _) (IZR _)).
  - apply IZR_lt. lia.
  - apply IZR_lt. by vm_compute.
  - rewrite <- !mult_IZR. apply IZR_le. by vm_compute.
Qed.

Lemma softmax_2_1_bounds :
  let s := Rtrigo_def.exp 2 + (Rtrigo_def.exp 1 + (0 + 0)) in
  Rabs (Rtrigo_def.exp 2 / s - 0.731) < 0.0005
  ∧ Rabs (Rtrigo_def.exp 1 / s - 0.269) < 0.0005.
Proof.
  intros s.
  pose proof exp_1_lower as Hlo.
  pose proof exp_minus_1_lower as Hm.
  assert (He2 : Rtrigo_def.exp 2 = Rtrigo_def.exp 1 * Rtrigo_def.exp 1).
  { rewrite <- exp_plus. f_equal; lra. }
  assert (Hinv : Rtrigo_def.exp 1 * Rtrigo_def.exp (- 1) = 1).
  { rewrite <- exp_plus. replace (1 + - 1) with 0 by lra. apply exp_0. }
  set (e := Rtrigo_def.exp 1) in *.
  set (u := Rtrigo_def.exp (- 1)) in *.
  assert (Hs : s = e * (e + 1)) by (unfold s; rewrite He2; ring).
  assert (Hpos : 0 < e) by apply exp_pos.
  assert (Hup' : e * 3676 <= 10000) by nra.
  assert (Hup : e <= 10000 / 3676) by lra.
  assert (Ha : Rtrigo_def.exp 2 / s = e / (e + 1)).
  { rewrite Hs, He2. field. split; lra. }
  assert (Hb : e / s = 1 / (e + 1)).
  { rewrite Hs. field. split; lra. }
  rewrite Ha, Hb.
  assert (Hl : 0.7305 < e / (e + 1)).
  { apply (Rmult_lt_reg_r (e + 1)); [lra|].
    replace (e / (e + 1) * (e + 1)) with e by (field; lra). lra. }
  assert (Hr : e / (e + 1) < 0.7315).
  { apply (Rmult_lt_reg_r (e + 1)); [lra|].
    replace (e / (e + 1) * (e + 1)) with e by (field; lra). lra. }
  assert (Hsum : 1 / (e + 1) = 1 - e / (e + 1)) by (field; lra).
  rewrite Hsum.
  split; apply Rabs_def1; lra.
Qed.

End exp_bounds.

(** * The attention weights of [dot_prod_attention] *)

Section attention.
Local Open Scope R_scope.
Implicit Types (scores w : list vector) (mask : list (list Z))
  (srow : vector) (mrow : list Z).

Lemma Forall2_zip {A B} (P : A → B → Prop) (l : list A) (k : list B) :
  Forall2 P l k → Forall (λ p, P p.1 p.2) (zip l k).
Proof. induction 1; constructor; done. Qed.

Lemma forallb_true {A} (f : A → bool) (l : list A) :
  Forall (λ x, f x = true) l → forallb f l = true.
Proof. induction 1 as [|x l Hx _ IH]; simpl; [done|]. by rewrite Hx. Qed.

Lemma same_shape_true {A B} (x : list (list A)) (y : list (list B)) :
  Forall2 (λ a b, length a = length b) x y → Torch.same_shape x y = true.
Proof.
  intros H. unfold Torch.same_shape.
  rewrite (Forall2_length _ _ _ H), Nat.eqb_refl. simpl.
  apply forallb_true.
  eapply Forall_impl; [apply Forall2_zip, H|].
  intros [a b] Hab. simpl in *. by rewrite Hab, Nat.eqb_refl.
Qed.

Lemma masked_fill_ok scores mask :
  Forall2 (λ s m, length s = length m) scores mask →
  Torch.masked_fill scores (Torch.to_bool mask) NInf
  = Ok (zip_with masked_row scores mask).
Proof.
  intros H. unfold Torch.masked_fill, Torch.to_bool.
  rewrite same_shape_true.
  - f_equal. by rewrite zip_with_fmap_r.
  - apply Forall2_fmap_r. eapply Forall2_impl; [exact H|].
    intros a b ->. simpl. by rewrite length_map.
Qed.

Lemma softmax_row_length srow :
  length (Torch.softmax_row srow) = length srow.
Proof. unfold Torch.softmax_row. by rewrite !length_map. Qed.

Lemma masked_row_length srow mrow :
  length srow = length mrow → length (masked_row srow mrow) = length srow.
Proof.
  intros H. unfold masked_row. rewrite length_zip_with, length_map. lia.
Qed.

Lemma bmm_vecmat_ok w (enc : list matrix) :
  Forall2 (λ wrow e, length e = length wrow ∧ Torch.rectangular e = true)
    w enc →
  ∃ ctx, Torch.bmm_vecmat w enc = Ok ctx.
Proof.
  intros H. unfold Torch.bmm_vecmat.
  rewrite (Forall2_length _ _ _ H), Nat.eqb_refl.
  eexists. apply mapM_ok_map with
    (g := λ p, map (λ j, Torch.dot p.1 (Torch.column j p.2))
                 (seq 0 (Torch.ncols p.2))).
  eapply Forall_impl; [apply Forall2_zip, H|].
  intros [wrow e] [Hlen Hrect]. simpl in *. unfold Torch.vecmat.
  by rewrite Hlen, Nat.eqb_refl, Hrect.
Qed.

(** With tensors of matching shapes the call returns, and the weights are
    the softmax of the masked scores. *)
Lemma dot_prod_attention_ok h_t enc lin mask scores :
  Torch.bmm_matvec lin h_t = Ok scores →
  Forall2 (λ s m, length s = length m) scores mask →
  Forall2 (λ e s, length e = length s ∧ Torch.rectangular e = true)
    enc scores →
  ∃ ctx,
    dot_prod_attention h_t enc lin (Some mask)
    = Ok (ctx, Torch.softmax (zip_with masked_row scores mask)).
Proof.
  intros Hs Hm He. unfold dot_prod_attention.
  rewrite Hs. cbn. rewrite masked_fill_ok by done. cbn.
  destruct (bmm_vecmat_ok (Torch.softmax (zip_with masked_row scores mask))
              enc) as [ctx Hctx].
  { unfold Torch.softmax. apply Forall2_fmap_l.
    apply Forall2_same_length_lookup. split.
    { rewrite length_zip_with, <- (Forall2_length _ _ _ Hm),
        (Forall2_length _ _ _ He). lia. }
    intros b r e Hr Hb. rewrite lookup_zip_with in Hr.
    destruct (scores !! b) as [s|] eqn:Hsb; simpl in Hr; [|done].
    destruct (mask !! b) as [m|] eqn:Hmb; simpl in Hr; [|done].
    injection Hr as <-.
    pose proof (Forall2_lookup_lr _ _ _ _ _ _ Hm Hsb Hmb) as Hlen.
    pose proof (Forall2_lookup_lr _ _ _ _ _ _ He Hb Hsb) as [Hlen' Hrect].
    split; [|done].
    by rewrite softmax_row_length, masked_row_length. }
  rewrite Hctx. cbn. eauto.
Qed.

Lemma exp_masked_row srow mrow :
  Forall finite srow →
  map F.exp (masked_row srow mrow) = map Fin (zip_with unmasked_exp srow mrow).
Proof.
  intros Hfin. revert mrow. unfold masked_row.
  induction Hfin as [|a srow [x ->] _ IH]; intros [|m mrow]; try done.
  cbn. rewrite IH. f_equal. unfold unmasked_exp.
  by destruct (Z.eqb_spec m 0).
Qed.

Lemma unmasked_exp_nonneg srow mrow :
  Forall (λ r, 0 <= r) (zip_with unmasked_exp srow mrow).
Proof.
  apply Forall_forall. intros r Hr.
  apply elem_of_zip_with in Hr as (a & m & -> & _ & _).
  unfold unmasked_exp. destruct (m =? 0)%Z; [|apply Rle_refl].
  apply Rlt_le, exp_pos.
Qed.

(** A row with an unmasked position has a positive softmax denominator. *)
Lemma unmasked_exp_sum_pos srow mrow :
  length srow = length mrow → 0%Z ∈ mrow → 0 < unmasked_exp_sum srow mrow.
Proof.
  intros Hlen Hin. apply Rsum_pos; [apply unmasked_exp_nonneg|].
  apply list_elem_of_lookup in Hin as [j Hj].
  destruct (lookup_lt_is_Some_2 srow j) as [a Ha].
  { rewrite Hlen. by eapply lookup_lt_Some. }
  apply Exists_exists. exists (unmasked_exp a 0). split.
  - apply list_elem_of_lookup. exists j.
    by rewrite lookup_zip_with, Ha, Hj.
  - apply exp_pos.
Qed.

(** The softmax of a masked row of finite scores, in real numbers. *)
Lemma softmax_masked_row srow mrow :
  Forall finite srow → length srow = length mrow → 0%Z ∈ mrow →
  Torch.softmax_row (masked_row srow mrow)
  = map (λ e, Fin (e / unmasked_exp_sum srow mrow))
      (zip_with unmasked_exp srow mrow).
Proof.
  intros Hfin Hlen Hin.
  pose proof (unmasked_exp_sum_pos srow mrow Hlen Hin) as Hpos.
  unfold Torch.softmax_row. rewrite exp_masked_row by done.
  rewrite sum_map_Fin. fold (unmasked_exp_sum srow mrow).
  rewrite <- list_fmap_compose. apply list_fmap_ext.
  intros _ e _. simpl. apply div_Fin. lra.
Qed.

Lemma softmax_masked_row_sum srow mrow :
  Forall finite srow → length srow = length mrow → 0%Z ∈ mrow →
  F.sum (Torch.softmax_row (masked_row srow mrow)) = Fin 1.
Proof.
  intros Hfin Hlen Hin.
  pose proof (unmasked_exp_sum_pos srow mrow Hlen Hin) as Hpos.
  rewrite softmax_masked_row by done.
  rewrite (list_fmap_compose (λ e, e / unmasked_exp_sum srow mrow) Fin).
  rewrite sum_map_Fin, Rsum_scale. f_equal.
  unfold unmasked_exp_sum. field. unfold unmasked_exp_sum in Hpos. lra.
Qed.

(** A row whose positions are all masked: every weight is NaN. *)
Lemma softmax_all_masked_row srow mrow :
  length srow = length mrow → Forall (λ m, m ≠ 0%Z) mrow →
  Torch.softmax_row (masked_row srow mrow) = replicate (length srow) NaN.
Proof.
  intros Hlen Hall.
  assert (Hrow : masked_row srow mrow = replicate (length srow) NInf).
  { clear -Hlen Hall. revert srow Hlen. unfold masked_row.
    induction Hall as [|m mrow Hm _ IH]; intros [|a srow] Hlen; try done.
    cbn. destruct (Z.eqb_spec m 0); [done|]. simpl. f_equal.
    apply IH. by injection Hlen. }
  rewrite Hrow. unfold Torch.softmax_row.
  generalize (length srow) as n. intros n.
  assert (Hsum : ∃ s, s = 0
            ∧ F.sum (map F.exp (replicate n NInf)) = Fin s).
  { induction n as [|n (s & Hs & IH)]; [by exists 0|].
    exists (0 + s). split; [lra|].
    change (map F.exp (replicate (S n) NInf))
      with (Fin 0 :: map F.exp (replicate n NInf)).
    by rewrite sum_cons, IH. }
  destruct Hsum as (s & Hs & ->).
  induction n as [|n IH]; [done|]. cbn. f_equal; [|exact IH].
  unfold F.div. destruct (Req_dec_T s 0) as [_|Hne]; [|done].
  unfold F.scale_inf.
  destruct (Rlt_dec 0 0) as [H|_]; [lra|].
  by destruct (Rlt_dec 0 0) as [H|_]; [lra|].
Qed.

End attention.

Section attention_claims.
Local Open Scope R_scope.
Implicit Types (scores w : list vector) (mask : list (list Z)).

Lemma entry_lookup {A} (t : list (list A)) (b j : nat) (x : A) :
  entry t b j = Some x ↔ ∃ row, t !! b = Some row ∧ row !! j = Some x.
Proof.
  unfold entry. destruct (t !! b) as [row|]; simpl.
  - split; [eauto|]. by intros (? & [= <-] & ?).
  - split; [done|]. by intros (? & ? & ?).
Qed.

Lemma masked_row_lookup (srow : vector) (mrow : list Z) j a m :
  srow !! j = Some a → mrow !! j = Some m →
  masked_row srow mrow !! j = Some (if (m =? 0)%Z then a else NInf).
Proof.
  intros Ha Hm. unfold masked_row.
  rewrite lookup_zip_with, Ha, list_lookup_fmap, Hm. simpl.
  by destruct (m =? 0)%Z.
Qed.

(** Claim C1.  Let the raw scores be finite, the mask have their shape and
    every mask row hold a zero.  Then the call returns; the scores are
    masked before the softmax: a position whose mask entry is not zero is
    set to minus infinity and has weight 0, a position whose mask entry is
    0 keeps its raw score [x] and has weight [exp x] over the sum of the
    [exp] of the unmasked scores of its row; every row of weights sums to
    1.  For the scores [[2, 1, 0]] and the mask [[0, 0, 1]] the weights are
    [0.731, 0.269, 0] to three decimals. *)
Theorem masked_attention_weights (h_t : list vector) (enc lin : list matrix)
    mask scores :
  Torch.bmm_matvec lin h_t = Ok scores →
  Forall (Forall finite) scores →
  Forall2 (λ s m, length s = length m) scores mask →
  Forall2 (λ e s, length e = length s ∧ Torch.rectangular e = true)
    enc scores →
  Forall (λ mrow, 0%Z ∈ mrow) mask →
  ∃ ctx filled w,
    Torch.masked_fill scores (Torch.to_bool mask) NInf = Ok filled
    ∧ dot_prod_attention h_t enc lin (Some mask) = Ok (ctx, w)
    ∧ w = Torch.softmax filled
    ∧ (∀ (b j : nat) (m : Z),
         entry mask b j = Some m →
         (m ≠ 0%Z →
            entry filled b j = Some NInf ∧ entry w b j = Some (Fin 0))
         ∧ (m = 0%Z →
            ∃ x srow mrow,
              scores !! b = Some srow ∧ mask !! b = Some mrow
              ∧ entry scores b j = Some (Fin x)
              ∧ entry filled b j = Some (Fin x)
              ∧ entry w b j
                = Some (Fin (Rtrigo_def.exp x
                             / unmasked_exp_sum srow mrow))))
    ∧ Forall2 (λ wrow mrow, length wrow = length mrow
                            ∧ F.sum wrow = Fin 1) w mask
    ∧ (scores = [[Fin 2; Fin 1; Fin 0]] → mask = [[0; 0; 1]]%Z →
       ∃ a b, w = [[Fin a; Fin b; Fin 0]]
              ∧ Rabs (a - 0.731) < 0.0005 ∧ Rabs (b - 0.269) < 0.0005).
Proof.
  intros Hs Hfin Hm He Hz.
  destruct (dot_prod_attention_ok h_t enc lin mask scores Hs Hm He)
    as [ctx Hrun].
  exists ctx, (zip_with masked_row scores mask),
    (Torch.softmax (zip_with masked_row scores mask)).
  split; [by apply masked_fill_ok|]. split; [done|]. split; [done|].
  assert (Hrows : ∀ b srow mrow,
    scores !! b = Some srow → mask !! b = Some mrow →
    Forall finite srow ∧ length srow = length mrow ∧ 0%Z ∈ mrow).
  { intros b srow mrow Hsb Hmb. split; [|split].
    - eapply Forall_lookup_1; eauto.
    - eapply (Forall2_lookup_lr _ _ _ _ _ _ Hm); eauto.
    - eapply (Forall_lookup_1 _ _ _ _ Hz); eauto. }
  split; [|split].
  - intros b j m Hentry.
    apply entry_lookup in Hentry as (mrow & Hmb & Hmj).
    destruct (lookup_lt_is_Some_2 scores b) as [srow Hsb].
    { rewrite (Forall2_length _ _ _ Hm). by eapply lookup_lt_Some. }
    destruct (Hrows b srow mrow Hsb Hmb) as (Hfr & Hlen & Hin).
    destruct (lookup_lt_is_Some_2 srow j) as [a Ha].
    { rewrite Hlen. by eapply lookup_lt_Some. }
    destruct (Forall_lookup_1 _ _ _ _ Hfr Ha) as [x ->].
    assert (Hfilled : zip_with masked_row scores mask !! b
                      = Some (masked_row srow mrow)).
    { by rewrite lookup_zip_with, Hsb, Hmb. }
    assert (Hw : Torch.softmax (zip_with masked_row scores mask) !! b
                 = Some (map (λ e, Fin (e / unmasked_exp_sum srow mrow))
                           (zip_with unmasked_exp srow mrow))).
    { unfold Torch.softmax. rewrite list_lookup_fmap, Hfilled. simpl.
      by rewrite softmax_masked_row. }
    pose proof (masked_row_lookup srow mrow j (Fin x) m Ha Hmj) as Hfj.
    assert (Hwj : map (λ e, Fin (e / unmasked_exp_sum srow mrow))
                    (zip_with unmasked_exp srow mrow) !! j
                  = Some (Fin (unmasked_exp (Fin x) m
                               / unmasked_exp_sum srow mrow))).
    { by rewrite list_lookup_fmap, lookup_zip_with, Ha, Hmj. }
    unfold unmasked_exp in Hwj. simpl in Hwj.
    split.
    + intros Hne. destruct (Z.eqb_spec m 0); [done|].
      rewrite Rdiv_0_l in Hwj.
      split; apply entry_lookup; eauto.
    + intros ->. simpl in *.
      exists x, srow, mrow. split; [done|]. split; [done|].
      split; [apply entry_lookup; eauto|].
      split; apply entry_lookup; eauto.
  - apply Forall2_same_length_lookup. split.
    { unfold Torch.softmax.
      rewrite length_map, length_zip_with, (Forall2_length _ _ _ Hm). lia. }
    intros b wrow mrow Hwb Hmb.
    destruct (lookup_lt_is_Some_2 scores b) as [srow Hsb].
    { rewrite (Forall2_length _ _ _ Hm). by eapply lookup_lt_Some. }
    destruct (Hrows b srow mrow Hsb Hmb) as (Hfr & Hlen & Hin).
    unfold Torch.softmax in Hwb.
    rewrite list_lookup_fmap, lookup_zip_with, Hsb, Hmb in Hwb.
    simpl in Hwb. injection Hwb as <-. split.
    + by rewrite softmax_row_length, masked_row_length.
    + by apply softmax_masked_row_sum.
  - intros -> ->.
    destruct softmax_2_1_bounds as [Ha Hb].
    do 2 eexists. split; [|split; [exact Ha|exact Hb]].
    unfold Torch.softmax. cbn [zip_with map].
    rewrite softmax_masked_row.
    + unfold unmasked_exp_sum, unmasked_exp. cbn. by rewrite Rdiv_0_l.
    + repeat constructor; by eexists.
    + done.
    + by constructor.
Qed.

Lemma masked_attention_weights_witness :
  let h_t := [[Fin 1]] in
  let lin := [[[Fin 2]; [Fin 1]; [Fin 0]]] in
  let enc := [[[Fin 1]; [Fin 1]; [Fin 1]]] in
  Torch.bmm_matvec lin h_t = Ok [[Fin 2; Fin 1; Fin 0]]
  ∧ ∃ ctx a b,
      dot_prod_attention h_t enc lin (Some [[0; 0; 1]]%Z)
      = Ok (ctx, [[Fin a; Fin b; Fin 0]])
      ∧ Rabs (a - 0.731) < 0.0005 ∧ Rabs (b - 0.269) < 0.0005.
Proof.
  intros h_t lin enc.
  assert (Hs : Torch.bmm_matvec lin h_t = Ok [[Fin 2; Fin 1; Fin 0]]).
  { cbn. do 3 f_equal; [|f_equal; [|f_equal]]; f_equal; lra. }
  split; [exact Hs|].
  destruct (masked_attention_weights h_t enc lin [[0; 0; 1]]%Z
              [[Fin 2; Fin 1; Fin 0]] Hs)
    as (ctx & filled & w & _ & Hrun & _ & _ & _ & Hex).
  - repeat constructor; by eexists.
  - by repeat constructor.
  - by repeat constructor.
  - by repeat constructor.
  - destruct (Hex eq_refl eq_refl) as (a & b & -> & Ha & Hb).
    by exists ctx, a, b.
Defined.

(** Claim C6, as the code has it.  A mask row without a zero makes the
    softmax input of that row minus infinity throughout; the call still
    returns normally, and every weight of that row is NaN.  Nothing is
    raised. *)
Theorem all_masked_row_gives_nan (h_t : list vector) (enc lin : list matrix)
    mask scores :
  Torch.bmm_matvec lin h_t = Ok scores →
  Forall2 (λ s m, length s = length m) scores mask →
  Forall2 (λ e s, length e = length s ∧ Torch.rectangular e = true)
    enc scores →
  ∃ ctx filled w,
    Torch.masked_fill scores (Torch.to_bool mask) NInf = Ok filled
    ∧ dot_prod_attention h_t enc lin (Some mask) = Ok (ctx, w)
    ∧ ∀ (b : nat) (mrow : list Z),
        mask !! b = Some mrow →
        Forall (λ m, m ≠ 0%Z) mrow →
        filled !! b = Some (replicate (length mrow) NInf)
        ∧ w !! b = Some (replicate (length mrow) NaN).
Proof.
  intros Hs Hm He.
  destruct (dot_prod_attention_ok h_t enc lin mask scores Hs Hm He)
    as [ctx Hrun].
  exists ctx, (zip_with masked_row scores mask),
    (Torch.softmax (zip_with masked_row scores mask)).
  split; [by apply masked_fill_ok|]. split; [done|].
  intros b mrow Hmb Hall.
  destruct (lookup_lt_is_Some_2 scores b) as [srow Hsb].
  { rewrite (Forall2_length _ _ _ Hm). by eapply lookup_lt_Some. }
  pose proof (Forall2_lookup_lr _ _ _ _ _ _ Hm Hsb Hmb) as Hlen.
  pose proof (softmax_all_masked_row srow mrow Hlen Hall) as Hnan.
  unfold Torch.softmax.
  rewrite list_lookup_fmap, lookup_zip_with, Hsb, Hmb. simpl.
  rewrite Hnan, <- Hlen. split; [|done]. f_equal.
  unfold Torch.softmax_row in Hnan.
  clear -Hlen Hall. revert srow Hlen. unfold masked_row.
  induction Hall as [|m mrow Hm0 _ IH]; intros [|a srow] Hlen; try done.
  cbn. destruct (Z.eqb_spec m 0); [done|]. simpl. f_equal.
  apply IH. by injection Hlen.
Qed.

Lemma all_masked_row_gives_nan_witness :
  let h_t := [[Fin 1]] in
  let lin := [[[Fin 2]; [Fin 1]]] in
  let enc := [[[Fin 1]; [Fin 1]]] in
  ∃ ctx,
    dot_prod_attention h_t enc lin (Some [[1; 1]]%Z)
    = Ok (ctx, [[NaN; NaN]]).
Proof.
  intros h_t lin enc.
  destruct (all_masked_row_gives_nan h_t enc lin [[1; 1]]%Z
              [[Fin (2 * 1 + 0); Fin (1 * 1 + 0)]] eq_refl)
    as (ctx & filled & w & _ & Hrun & Hrow).
  - by repeat constructor.
  - by repeat constructor.
  - destruct (Hrow 0%nat [1; 1]%Z eq_refl) as [_ Hw].
    { by repeat constructor. }
    destruct w as [|wrow [|? ?]].
    + discriminate Hw.
    + injection Hw as ->. by exists ctx.
    + exfalso. clear -Hrun.
      cbn in Hrun. by destruct Torch.vecmat.
Defined.

(** Claim C6 as stated fails: with the only mask row all ones the call
    returns, with NaN weights, and raises nothing. *)
Lemma all_masked_call_returns :
  let h_t := [[Fin 1]] in
  let lin := [[[Fin 2]; [Fin 1]]] in
  let enc := [[[Fin 1]; [Fin 1]]] in
  Forall (Forall (λ m, m = 1%Z)) [[1; 1]]%Z
  ∧ (∃ ctx, dot_prod_attention h_t enc lin (Some [[1; 1]]%Z)
            = Ok (ctx, [[NaN; NaN]]))
  ∧ ¬ ∃ e, dot_prod_attention h_t enc lin (Some [[1; 1]]%Z) = Raise e.
Proof.
  intros h_t lin enc.
  assert (Hrun : ∃ ctx, dot_prod_attention h_t enc lin (Some [[1; 1]]%Z)
                        = Ok (ctx, [[NaN; NaN]])).
  { destruct (dot_prod_attention_ok h_t enc lin [[1; 1]]%Z
                [[Fin (2 * 1 + 0); Fin (1 * 1 + 0)]] eq_refl)
      as [ctx Hctx]; [by repeat constructor..|].
    exists ctx. rewrite Hctx. unfold Torch.softmax. cbn [zip_with map].
    by rewrite softmax_all_masked_row by (by repeat constructor). }
  split; [by repeat constructor|]. split; [exact Hrun|].
  destruct Hrun as [ctx Hctx]. intros [e He]. congruence.
Qed.

End attention_claims.

(** * The store monad *)

Section store_monad.
Implicit Types (σ : store) (l : loc).

Lemma bind_run {A B} (m : M A) (k : A → M B) σ :
  (m ≫= k) σ
  = match m σ with
    | (Ok a, σ') => k a σ'
    | (Raise e, σ') => (Raise e, σ')
    end.
Proof. reflexivity. Qed.

Lemma load_run l σ t : σ !! l = Some t → load l σ = (Ok t, σ).
Proof. intros H. unfold load. by rewrite H. Qed.

Lemma fresh_not_allocated σ : σ !! fresh (dom σ) = None.
Proof. apply not_elem_of_dom, is_fresh. Qed.

Lemma fresh_ne σ l t : σ !! l = Some t → fresh (dom σ) ≠ l.
Proof. intros H Heq. rewrite <- Heq, fresh_not_allocated in H. done. Qed.

End store_monad.

(** * Construction of a [LabelSmoothing] instance *)

Section init.
Local Open Scope Z_scope.
Implicit Types (σ : store) (l : loc) (row : vector) (I : list Z).

Lemma is_zero_of_Z (d : Z) : F.is_zero (F.of_Z d) = bool_decide (d = 0).
Proof.
  unfold F.is_zero, F.of_Z. destruct (Req_dec_T (IZR d) 0) as [H|H].
  - apply eq_IZR_R0 in H. by rewrite bool_decide_eq_true_2.
  - rewrite bool_decide_eq_false_2; [done|]. by intros ->.
Qed.

Lemma wrap_index_lt (n idx : Z) :
  - n ≤ idx < n → (wrap_index n idx < Z.to_nat n)%nat.
Proof. intros H. unfold wrap_index. destruct (Z.ltb_spec idx 0); lia. Qed.

(** The loop [for idx in ignore_indices: one_hot[idx] = 0.] when every
    index is in range. *)
Lemma for_each_setitem_ok I :
  ∀ row σ l,
    σ !! l = Some [row] →
    Forall (λ idx, - Py.len row ≤ idx < Py.len row) I →
    for_each I (λ idx, TorchRef.setitem l idx (Fin 0)) σ
    = (Ok (),
       <[l := [foldl (λ r idx, <[wrap_index (Py.len row) idx := Fin 0]> r)
                 row I]]> σ).
Proof.
  induction I as [|idx I IH]; intros row σ l Hl Hall.
  - simpl. by rewrite insert_id.
  - apply Forall_cons in Hall as [Hidx Hall].
    cbn [for_each foldl]. rewrite bind_run.
    unfold TorchRef.setitem at 1. rewrite bind_run, (load_run _ _ _ Hl).
    destruct (Z.leb_spec (- Py.len row) idx); [|lia].
    destruct (Z.ltb_spec idx (Py.len row)); [|lia].
    cbn [andb]. unfold write.
    set (row1 := <[_ := Fin 0]> row).
    assert (Hlen : Py.len row1 = Py.len row).
    { unfold Py.len, row1. by rewrite length_insert. }
    rewrite (IH row1); [|by rewrite lookup_insert_eq|by rewrite Hlen].
    rewrite insert_insert_eq, Hlen. done.
Qed.

(** The loop stops with [IndexError] at the first index out of range. *)
Lemma for_each_setitem_raise I :
  ∀ row σ l,
    σ !! l = Some [row] →
    Exists (λ idx, ¬ (- Py.len row ≤ idx < Py.len row)) I →
    ∃ σ', for_each I (λ idx, TorchRef.setitem l idx (Fin 0)) σ
          = (Raise IndexError, σ').
Proof.
  induction I as [|idx I IH]; intros row σ l Hl Hex.
  - by apply Exists_nil in Hex.
  - cbn [for_each]. rewrite bind_run.
    unfold TorchRef.setitem at 1. rewrite bind_run, (load_run _ _ _ Hl).
    destruct (decide (- Py.len row ≤ idx < Py.len row)) as [Hin|Hout].
    + apply Exists_cons in Hex as [?|Hex]; [done|].
      destruct (Z.leb_spec (- Py.len row) idx); [|lia].
      destruct (Z.ltb_spec idx (Py.len row)); [|lia].
      cbn [andb]. unfold write.
      set (row1 := <[_ := Fin 0]> row).
      assert (Hlen : Py.len row1 = Py.len row).
      { unfold Py.len, row1. by rewrite length_insert. }
      apply (IH row1); [by rewrite lookup_insert_eq|by rewrite Hlen].
    + eexists.
      destruct (Z.leb_spec (- Py.len row) idx);
        destruct (Z.ltb_spec idx (Py.len row)); try lia; reflexivity.
Qed.

Lemma zeros_run (n : Z) σ :
  0 ≤ n →
  TorchRef.zeros n σ
  = (Ok (fresh (dom σ)),
     <[fresh (dom σ) := [replicate (Z.to_nat n) (Fin 0)]]> σ).
Proof.
  intros Hn. unfold TorchRef.zeros. by destruct (Z.ltb_spec n 0); [lia|].
Qed.

Lemma fill_run l (v : float) σ (rows : matrix) :
  σ !! l = Some rows →
  TorchRef.fill_ l v σ = (Ok l, <[l := map (map (λ _, v)) rows]> σ).
Proof.
  intros Hl. unfold TorchRef.fill_.
  by rewrite bind_run, (load_run _ _ _ Hl), bind_run.
Qed.

Lemma init_run (s : float) (V : Z) (oI : option (list Z)) σ :
  let I := default [] oI in
  let d := V - 1 - Py.len I in
  d ≠ 0 → 0 ≤ V → Forall (λ idx, - V ≤ idx < V) I →
  LabelSmoothing.__init__ s V oI σ
  = (Ok (LabelSmoothing.Build (F.sub (Fin 1) s) (fresh (dom σ))),
     <[fresh (dom σ) := [template (F.div s (F.of_Z d)) V I]]> σ).
Proof.
  intros I d Hd HV Hall. unfold LabelSmoothing.__init__.
  replace (match oI with Some l => l | None => [] end) with I
    by (by destruct oI).
  fold d. rewrite bind_run. unfold lift, F.truediv.
  rewrite is_zero_of_Z, bool_decide_eq_false_2 by done.
  rewrite bind_run, zeros_run by done.
  set (l := fresh (dom σ)).
  rewrite bind_run, (fill_run l _ _ [replicate (Z.to_nat V) (Fin 0)])
    by (by rewrite lookup_insert_eq).
  rewrite insert_insert_eq. cbn [map].
  rewrite fmap_replicate.
  set (sv := F.div s (F.of_Z d)).
  assert (Hlen : Py.len (replicate (Z.to_nat V) sv) = V).
  { unfold Py.len. rewrite length_replicate. lia. }
  rewrite bind_run.
  rewrite (for_each_setitem_ok I (replicate (Z.to_nat V) sv));
    [|by rewrite lookup_insert_eq|by rewrite Hlen].
  rewrite insert_insert_eq, Hlen. reflexivity.
Qed.

End init.

(** * The template and the target distribution *)

Section template.
Local Open Scope R_scope.
Implicit Types (σ : store) (l : loc) (row : vector) (I : list Z).

Lemma foldl_insert_length {A} (z : A) (js : list nat) :
  ∀ r : list A, length (foldl (λ r j, <[j := z]> r) r js) = length r.
Proof.
  induction js as [|j js IH]; intros r; simpl; [done|].
  by rewrite IH, length_insert.
Qed.

Lemma foldl_insert_lookup {A} (z : A) (js : list nat) :
  ∀ (r : list A) (i : nat),
    foldl (λ r j, <[j := z]> r) r js !! i
    = if decide (i ∈ js) then (λ _, z) <$> r !! i else r !! i.
Proof.
  induction js as [|j js IH]; intros r i; simpl.
  - done.
  - rewrite IH. destruct (decide (i = j)) as [->|Hne].
    + rewrite (decide_True (P := j ∈ j :: js)) by (by left).
      destruct (decide (j < length r)%nat).
      * rewrite list_lookup_insert_eq by done.
        destruct (lookup_lt_is_Some_2 r j) as [x ->]; [done|].
        by destruct (decide (j ∈ js)).
      * rewrite list_insert_ge by lia. rewrite lookup_ge_None_2 by lia.
        by destruct (decide (j ∈ js)).
    + rewrite list_lookup_insert_ne by done.
      destruct (decide (i ∈ js)) as [Hin|Hout].
      * by rewrite decide_True by (by right).
      * rewrite decide_False; [done|].
        intros [?|?]%elem_of_cons; done.
Qed.

Lemma Rsum_replicate (n : nat) (x : R) : Rsum (replicate n x) = INR n * x.
Proof.
  induction n as [|n IH]; [simpl; lra|].
  rewrite S_INR. cbn [replicate Rsum foldr]. fold (Rsum (replicate n x)).
  rewrite IH. lra.
Qed.

Lemma Rsum_insert (rs : list R) :
  ∀ (i : nat) (x y : R),
    rs !! i = Some x → Rsum (<[i := y]> rs) = Rsum rs - x + y.
Proof.
  induction rs as [|r rs IH]; intros [|i] x y Hi; try done.
  - injection Hi as ->. simpl. lra.
  - simpl in *. fold (Rsum (<[i := y]> rs)). fold (Rsum rs).
    rewrite (IH i x y Hi). lra.
Qed.

Lemma Rsum_foldl_zero (js : list nat) :
  ∀ (rs : list R) (x : R),
    NoDup js → (∀ j, j ∈ js → rs !! j = Some x) →
    Rsum (foldl (λ r j, <[j := 0]> r) rs js)
    = Rsum rs - INR (length js) * x.
Proof.
  induction js as [|j js IH]; intros rs x Hnd Hx.
  - simpl. lra.
  - apply NoDup_cons in Hnd as [Hj Hnd].
    cbn [foldl]. rewrite (IH _ x Hnd).
    + rewrite (Rsum_insert rs j x 0) by (apply Hx; by left).
      cbn [length]. rewrite S_INR. lra.
    + intros j' Hj'. rewrite list_lookup_insert_ne by (by intros ->).
      apply Hx. by right.
Qed.

Lemma foldl_insert_Fin (js : list nat) :
  ∀ rs : list R,
    foldl (λ r j, <[j := Fin 0]> r) (map Fin rs) js
    = map Fin (foldl (λ r j, <[j := 0]> r) rs js).
Proof.
  induction js as [|j js IH]; intros rs; [done|].
  cbn [foldl]. by rewrite <- list_fmap_insert, IH.
Qed.

(** With indices in [0, V), the template in real numbers. *)
Lemma template_nonneg (x : R) (V : Z) I :
  Forall (λ i, (0 ≤ i < V)%Z) I →
  template (Fin x) V I
  = map Fin (foldl (λ r j, <[j := 0]> r) (replicate (Z.to_nat V) x)
               (map Z.to_nat I)).
Proof.
  intros Hall. unfold template.
  rewrite <- foldl_insert_Fin, fmap_replicate, foldl_fmap.
  clear -Hall. generalize (replicate (Z.to_nat V) (Fin x)) as r.
  induction Hall as [|i I Hi _ IH]; intros r; [done|].
  cbn [foldl]. rewrite IH. do 2 f_equal. unfold wrap_index.
  destruct (Z.ltb_spec i 0); [lia|done].
Qed.

Lemma to_nat_NoDup I (V : Z) :
  Forall (λ i, (0 ≤ i < V)%Z) I → NoDup I → NoDup (map Z.to_nat I).
Proof.
  intros Hall Hnd. apply NoDup_fmap_2_strong; [|done].
  intros i j Hi Hj Heq. rewrite Forall_forall in Hall.
  pose proof (Hall i Hi). pose proof (Hall j Hj). lia.
Qed.

Lemma to_nat_elem_of I (V i : Z) :
  Forall (λ i, (0 ≤ i < V)%Z) I → (0 ≤ i)%Z →
  Z.to_nat i ∈ map Z.to_nat I ↔ i ∈ I.
Proof.
  intros Hall Hi. rewrite list_elem_of_fmap. split.
  - intros (j & Heq & Hj). rewrite Forall_forall in Hall.
    pose proof (Hall j Hj). by replace i with j by lia.
  - intros Hin. by exists i.
Qed.

(** The row of the target distribution for the target [t]: the template
    with [confidence] written at position [t]. *)
Lemma distribution_row (x c : R) (V : Z) I (t : Z) :
  NoDup I → Forall (λ i, (0 ≤ i < V)%Z) I → (0 ≤ t < V)%Z →
  let tpl := template (Fin x) V I in
  let row := <[Z.to_nat t := Fin c]> tpl in
  length row = Z.to_nat V
  ∧ tpl !! Z.to_nat t = Some (Fin (if decide (t ∈ I) then 0 else x))
  ∧ row !! Z.to_nat t = Some (Fin c)
  ∧ (∀ i, i ∈ I → i ≠ t → row !! Z.to_nat i = Some (Fin 0))
  ∧ (∀ i, (0 ≤ i < V)%Z → i ∉ I → i ≠ t →
          row !! Z.to_nat i = Some (Fin x))
  ∧ F.sum row
    = Fin ((IZR V - IZR (Py.len I)) * x
           - (if decide (t ∈ I) then 0 else x) + c).
Proof.
  intros Hnd Hall Ht tpl row.
  set (rs := foldl (λ r j, <[j := 0]> r) (replicate (Z.to_nat V) x)
               (map Z.to_nat I)).
  assert (Htpl : tpl = map Fin rs) by (by apply template_nonneg).
  assert (Hlen : length rs = Z.to_nat V).
  { unfold rs. by rewrite foldl_insert_length, length_replicate. }
  assert (Hlook : ∀ i, (0 ≤ i < V)%Z →
            rs !! Z.to_nat i = Some (if decide (i ∈ I) then 0 else x)).
  { intros i Hi. unfold rs. rewrite foldl_insert_lookup.
    rewrite lookup_replicate_2 by lia. simpl.
    destruct (decide (i ∈ I)) as [Hin|Hout].
    - by rewrite decide_True by (by eapply to_nat_elem_of; [|lia|]).
    - rewrite decide_False; [done|].
      rewrite to_nat_elem_of; [done..|lia]. }
  assert (Hrow : row = map Fin (<[Z.to_nat t := c]> rs)).
  { unfold row. by rewrite Htpl, list_fmap_insert. }
  split; [by rewrite Hrow, length_map, length_insert|].
  split; [by rewrite Htpl, list_lookup_fmap, (Hlook t Ht)|].
  split.
  { rewrite Hrow, list_lookup_fmap, list_lookup_insert_eq by lia. done. }
  split.
  { intros i Hi Hne. rewrite Forall_forall in Hall.
    pose proof (Hall i Hi) as Hr.
    rewrite Hrow, list_lookup_fmap, list_lookup_insert_ne by lia.
    rewrite (Hlook i Hr). by rewrite decide_True. }
  split.
  { intros i Hr Hi Hne.
    rewrite Hrow, list_lookup_fmap, list_lookup_insert_ne by lia.
    rewrite (Hlook i Hr). by rewrite decide_False. }
  rewrite Hrow, sum_map_Fin. f_equal.
  rewrite (Rsum_insert rs _ _ c (Hlook t Ht)).
  unfold rs. rewrite (Rsum_foldl_zero _ _ x).
  - rewrite Rsum_replicate, length_map, !INR_IZR_INZ.
    rewrite Z2Nat.id by lia. unfold Py.len. lra.
  - by eapply to_nat_NoDup.
  - intros j Hj. apply list_elem_of_fmap in Hj as (i & -> & Hi).
    rewrite Forall_forall in Hall. pose proof (Hall i Hi).
    apply lookup_replicate_2. lia.
Qed.

End template.

(** * [forward]: the target distribution *)

Section true_dist.
Local Open Scope Z_scope.
Implicit Types (σ : store) (l : loc) (row tpl : vector) (I : list Z).

Lemma concat_replicate_singleton {A} (n : nat) (x : A) :
  concat (replicate n [x]) = replicate n x.
Proof. induction n as [|n IH]; simpl; [done|]. by rewrite IH. Qed.

Lemma repeat_run l (count : nat) σ tpl :
  σ !! l = Some [tpl] →
  TorchRef.repeat l count σ
  = (Ok (fresh (dom σ)), <[fresh (dom σ) := replicate count tpl]> σ).
Proof.
  intros Hl. unfold TorchRef.repeat.
  rewrite bind_run, (load_run _ _ _ Hl). unfold alloc.
  by rewrite concat_replicate_singleton.
Qed.

Lemma scatter_rows_ok tpl (index : list Z) (v : float) :
  Forall (λ t, 0 ≤ t < Py.len tpl) index →
  mapM (λ p, TorchRef.scatter_row p.1 p.2 v)
    (zip (replicate (length index) tpl) index)
  = Ok (map (λ t, <[Z.to_nat t := v]> tpl) index).
Proof.
  intros Hall.
  rewrite (mapM_ok_map _ (λ p, <[Z.to_nat p.2 := v]> p.1)).
  - f_equal. clear Hall. induction index as [|t index IH]; [done|].
    simpl. by rewrite IH.
  - induction Hall as [|t index Ht _ IH]; [done|].
    simpl. constructor; [|exact IH]. simpl.
    unfold TorchRef.scatter_row.
    destruct (Z.leb_spec 0 t); [|lia].
    by destruct (Z.ltb_spec t (Py.len tpl)); [|lia].
Qed.

Lemma scatter_run l (index : list Z) (v : float) σ tpl :
  σ !! l = Some (replicate (length index) tpl) →
  Forall (λ t, 0 ≤ t < Py.len tpl) index →
  TorchRef.scatter_ l index v σ
  = (Ok (), <[l := map (λ t, <[Z.to_nat t := v]> tpl) index]> σ).
Proof.
  intros Hl Hall. unfold TorchRef.scatter_.
  rewrite bind_run, (load_run _ _ _ Hl).
  rewrite length_replicate, Nat.eqb_refl.
  rewrite bind_run. unfold lift. by rewrite scatter_rows_ok.
Qed.

(** Lines 136-138 on a shared template [tpl]: a new tensor holds, for each
    target, a copy of the template with [confidence] written at the
    target. *)
Lemma true_dist_run (self : LabelSmoothing.t) (model_prob : matrix)
    (target : list Z) σ tpl :
  σ !! LabelSmoothing.one_hot self = Some [tpl] →
  length target = length model_prob →
  Forall (λ t, 0 ≤ t < Py.len tpl) target →
  LabelSmoothing.true_dist self model_prob target σ
  = (Ok (fresh (dom σ)),
     <[fresh (dom σ)
       := map (λ t, <[Z.to_nat t := LabelSmoothing.confidence self]> tpl)
            target]> σ).
Proof.
  intros Hl Hlen Hall. unfold LabelSmoothing.true_dist.
  rewrite bind_run, (repeat_run _ _ _ tpl Hl), <- Hlen.
  rewrite bind_run, (scatter_run _ _ _ _ tpl);
    [|by rewrite lookup_insert_eq|done].
  by rewrite insert_insert_eq.
Qed.

End true_dist.

(** * Properties of [LabelSmoothing] *)

Section label_smoothing_claims.
Local Open Scope R_scope.
Implicit Types (σ : store) (I : list Z).

Lemma template_length (sv : float) (V : Z) I :
  length (template sv V I) = Z.to_nat V.
Proof.
  unfold template.
  rewrite <- (length_replicate (Z.to_nat V) sv) at 2.
  generalize (replicate (Z.to_nat V) sv) as r.
  induction I as [|i I IH]; intros r; [done|].
  cbn [foldl]. by rewrite IH, length_insert.
Qed.

Lemma smoothing_value_finite (s : R) (d : Z) :
  d ≠ 0%Z → F.div (Fin s) (F.of_Z d) = Fin (s / IZR d).
Proof. intros Hd. apply div_Fin. by intros ?%eq_IZR_R0. Qed.

(** Construction followed by lines 136-138 of [forward], for ignored
    indices and targets inside the vocabulary. *)
Lemma init_true_dist_run (s : R) (V : Z) I σ0 (model_prob : matrix)
    (target : list Z) :
  (0 ≤ V)%Z →
  Forall (λ i, (0 ≤ i < V)%Z) I →
  (V - 1 - Py.len I ≠ 0)%Z →
  length target = length model_prob →
  Forall (λ t, (0 ≤ t < V)%Z) target →
  let tpl := template (Fin (s / IZR (V - 1 - Py.len I))) V I in
  ∃ self σ1 td σ2,
    LabelSmoothing.__init__ (Fin s) V (Some I) σ0 = (Ok self, σ1)
    ∧ LabelSmoothing.confidence self = Fin (1 - s)
    ∧ σ1 !! LabelSmoothing.one_hot self = Some [tpl]
    ∧ LabelSmoothing.true_dist self model_prob target σ1 = (Ok td, σ2)
    ∧ σ2 !! td = Some (map (λ t, <[Z.to_nat t := Fin (1 - s)]> tpl) target).
Proof.
  intros HV HI Hd Hlen Ht tpl.
  pose proof (init_run (Fin s) V (Some I) σ0) as Hinit.
  cbn zeta in Hinit. cbn [default] in Hinit.
  rewrite smoothing_value_finite in Hinit by done.
  specialize (Hinit Hd HV).
  eexists _, _, _, _. split.
  { apply Hinit. eapply Forall_impl; [exact HI|]. simpl. lia. }
  split; [done|]. cbn [LabelSmoothing.one_hot].
  split; [by rewrite lookup_insert_eq|].
  split.
  - apply true_dist_run with (tpl := tpl);
      [by rewrite lookup_insert_eq|done|].
    unfold Py.len, tpl. rewrite template_length.
    eapply Forall_impl; [exact Ht|]. simpl. lia.
  - by rewrite lookup_insert_eq.
Qed.

(** Claim C2.  With smoothing in (0, 1), distinct ignored indices inside
    the vocabulary, a positive denominator and targets that are not
    ignored, construction succeeds and [forward] builds, for every target,
    a distribution that is 0 at each ignored index, [1 - smoothing] at the
    target and [smoothing / (V - 1 - |I|)] elsewhere, and that sums to 1.
    For V = 5, smoothing = 0.4, I = {0} and target 2 the distribution is
    [0, 2/15, 0.6, 2/15, 2/15], and 2/15 is 0.1333 to four decimals. *)
Theorem smoothed_distribution (s : R) (V : Z) I σ0 (model_prob : matrix)
    (target : list Z) :
  0 < s < 1 →
  NoDup I →
  Forall (λ i, (0 ≤ i < V)%Z) I →
  (V - 1 - Py.len I > 0)%Z →
  length target = length model_prob →
  Forall (λ t, (0 ≤ t < V)%Z ∧ t ∉ I) target →
  ∃ self σ1 td σ2 rows,
    LabelSmoothing.__init__ (Fin s) V (Some I) σ0 = (Ok self, σ1)
    ∧ LabelSmoothing.confidence self = Fin (1 - s)
    ∧ LabelSmoothing.true_dist self model_prob target σ1 = (Ok td, σ2)
    ∧ σ2 !! td = Some rows
    ∧ length rows = length target
    ∧ (∀ (p : nat) (t : Z),
         target !! p = Some t →
         ∃ row,
           rows !! p = Some row
           ∧ length row = Z.to_nat V
           ∧ (∀ i, i ∈ I → row !! Z.to_nat i = Some (Fin 0))
           ∧ row !! Z.to_nat t = Some (Fin (1 - s))
           ∧ (∀ i, (0 ≤ i < V)%Z → i ∉ I → i ≠ t →
                row !! Z.to_nat i
                = Some (Fin (s / IZR (V - 1 - Py.len I))))
           ∧ F.sum row = Fin 1)
    ∧ (V = 5%Z → s = 0.4 → I = [0%Z] → target = [2%Z] →
       ∃ a b,
         rows = [[Fin 0; Fin a; Fin b; Fin a; Fin a]]
         ∧ a = 2 / 15 ∧ b = 0.6 ∧ Rabs (a - 0.1333) < 0.0001).
Proof.
  intros Hs Hnd HI Hd Hlen Ht.
  assert (HV : (0 ≤ V)%Z) by (unfold Py.len in Hd; lia).
  destruct (init_true_dist_run s V I σ0 model_prob target)
    as (self & σ1 & td & σ2 & Hinit & Hconf & _ & Hrun & Htd);
    [done|done|lia|done| |].
  { eapply Forall_impl; [exact Ht|]. by intros t [? _]. }
  exists self, σ1, td, σ2. eexists.
  split; [exact Hinit|]. split; [exact Hconf|]. split; [exact Hrun|].
  split; [exact Htd|]. split; [by rewrite length_map|]. split.
  - intros p t Hp. eexists.
    split; [by rewrite list_lookup_fmap, Hp|].
    rewrite Forall_forall in Ht.
    destruct (Ht t) as [Hrange Hnot]; [by eapply list_elem_of_lookup_2|].
    destruct (distribution_row (s / IZR (V - 1 - Py.len I)) (1 - s) V I t
                Hnd HI Hrange)
      as (Hlenr & _ & Htgt & Hign & Hother & Hsum).
    split; [exact Hlenr|]. split.
    { intros i Hi. apply Hign; [done|]. by intros ->. }
    split; [exact Htgt|]. split; [exact Hother|].
    rewrite Hsum, decide_False by done. f_equal.
    rewrite !minus_IZR. unfold Py.len in *.
    assert (IZR V - 1 - IZR (Z.of_nat (length I)) ≠ 0).
    { rewrite <- !minus_IZR. intros ?%eq_IZR_R0. lia. }
    by field.
  - intros -> -> -> ->. do 2 eexists. split; [reflexivity|].
    change (IZR (5 - 1 - Py.len [0%Z])) with 3.
    split; [lra|]. split; [lra|].
    apply Rabs_def1; lra.
Qed.

Lemma smoothed_distribution_witness :
  ∃ self σ1 td σ2 a b,
    LabelSmoothing.__init__ (Fin 0.4) 5 (Some [0%Z]) ∅ = (Ok self, σ1)
    ∧ LabelSmoothing.true_dist self [replicate 5 (Fin 0)] [2%Z] σ1
      = (Ok td, σ2)
    ∧ σ2 !! td = Some [[Fin 0; Fin a; Fin b; Fin a; Fin a]]
    ∧ a = 2 / 15 ∧ b = 0.6.
Proof.
  destruct (smoothed_distribution 0.4 5 [0%Z] ∅ [replicate 5 (Fin 0)]
              [2%Z])
    as (self & σ1 & td & σ2 & rows & Hinit & _ & Hrun & Htd & _ & _ & Hex).
  - lra.
  - apply NoDup_singleton.
  - by repeat constructor.
  - by vm_compute.
  - reflexivity.
  - repeat constructor; [lia..|]. by intros [=]%list_elem_of_singleton.
  - destruct (Hex eq_refl eq_refl eq_refl eq_refl)
      as (a & b & -> & Ha & Hb & _).
    by exists self, σ1, td, σ2, a, b.
Defined.

(** Claim C8.  The scatter-write puts [confidence] at the target whatever
    the template holds there.  When the target is an ignored index, the
    template held 0 at that position, and the distribution sums to
    [confidence + smoothing_value * (V - 1 - |I|) + smoothing_value], that
    is to [1 + smoothing_value], which is not 1. *)
Theorem ignored_target_overwritten (s : R) (V : Z) I σ0
    (model_prob : matrix) (target : list Z) :
  0 < s < 1 →
  NoDup I →
  Forall (λ i, (0 ≤ i < V)%Z) I →
  (V - 1 - Py.len I > 0)%Z →
  length target = length model_prob →
  Forall (λ t, (0 ≤ t < V)%Z) target →
  let sv := s / IZR (V - 1 - Py.len I) in
  ∃ self σ1 tpl td σ2 rows,
    LabelSmoothing.__init__ (Fin s) V (Some I) σ0 = (Ok self, σ1)
    ∧ LabelSmoothing.confidence self = Fin (1 - s)
    ∧ σ1 !! LabelSmoothing.one_hot self = Some [tpl]
    ∧ LabelSmoothing.true_dist self model_prob target σ1 = (Ok td, σ2)
    ∧ σ2 !! td = Some rows
    ∧ ∀ (p : nat) (t : Z),
        target !! p = Some t →
        ∃ row,
          rows !! p = Some row
          ∧ row !! Z.to_nat t = Some (LabelSmoothing.confidence self)
          ∧ (t ∈ I →
             tpl !! Z.to_nat t = Some (Fin 0)
             ∧ F.sum row
               = Fin (1 - s + sv * IZR (V - 1 - Py.len I) + sv)
             ∧ 1 - s + sv * IZR (V - 1 - Py.len I) + sv = 1 + sv
             ∧ F.sum row ≠ Fin 1).
Proof.
  intros Hs Hnd HI Hd Hlen Ht sv.
  assert (HV : (0 ≤ V)%Z) by (unfold Py.len in Hd; lia).
  destruct (init_true_dist_run s V I σ0 model_prob target)
    as (self & σ1 & td & σ2 & Hinit & Hconf & Htpl & Hrun & Htd);
    [done|done|lia|done|done|].
  exists self, σ1. eexists. exists td, σ2. eexists.
  split; [exact Hinit|]. split; [exact Hconf|]. split; [exact Htpl|].
  split; [exact Hrun|]. split; [exact Htd|].
  intros p t Hp. eexists.
  split; [by rewrite list_lookup_fmap, Hp|].
  rewrite Forall_forall in Ht.
  pose proof (Ht t (list_elem_of_lookup_2 _ _ _ Hp)) as Hrange.
  destruct (distribution_row sv (1 - s) V I t Hnd HI Hrange)
    as (_ & Hzero & Htgt & _ & _ & Hsum).
  split; [by rewrite Hconf|].
  intros Hin. rewrite decide_True in Hzero, Hsum by done.
  assert (Hd' : IZR (V - 1 - Py.len I) ≠ 0).
  { intros ?%eq_IZR_R0. lia. }
  assert (Hsv : 0 < sv).
  { apply Rdiv_lt_0_compat; [lra|]. apply IZR_lt. lia. }
  assert (Heq : 1 - s + sv * IZR (V - 1 - Py.len I) + sv = 1 + sv).
  { unfold sv. by field. }
  assert (Hsum' : F.sum (<[Z.to_nat t := Fin (1 - s)]>
                          (template (Fin sv) V I))
                  = Fin (1 - s + sv * IZR (V - 1 - Py.len I) + sv)).
  { rewrite Hsum. f_equal. rewrite !minus_IZR. lra. }
  split; [exact Hzero|]. split; [exact Hsum'|]. split; [exact Heq|].
  intros Hone. pose proof (eq_trans (eq_sym Hsum') Hone) as [= H]. lra.
Qed.

Lemma ignored_target_overwritten_witness :
  ∃ self σ1 td σ2 rows row,
    LabelSmoothing.__init__ (Fin 0.4) 5 (Some [0%Z]) ∅ = (Ok self, σ1)
    ∧ LabelSmoothing.true_dist self [replicate 5 (Fin 0)] [0%Z] σ1
      = (Ok td, σ2)
    ∧ σ2 !! td = Some rows
    ∧ rows !! 0%nat = Some row
    ∧ F.sum row ≠ Fin 1.
Proof.
  destruct (ignored_target_overwritten 0.4 5 [0%Z] ∅
              [replicate 5 (Fin 0)] [0%Z])
    as (self & σ1 & tpl & td & σ2 & rows & Hinit & _ & _ & Hrun & Htd
        & Hrow).
  - lra.
  - apply NoDup_singleton.
  - by repeat constructor.
  - by vm_compute.
  - reflexivity.
  - by repeat constructor.
  - destruct (Hrow 0%nat 0%Z eq_refl) as (row & Hr & _ & Hsum).
    destruct (Hsum ltac:(by constructor)) as (_ & _ & _ & Hne).
    by exists self, σ1, td, σ2, rows, row.
Defined.

End label_smoothing_claims.

(** * The value computed by [forward] *)

Section forward_value.
Implicit Types (σ : store) (l : loc).

(** [forward] reads the buffer and [confidence] and nothing else. *)
Lemma forward_outcome (self : LabelSmoothing.t) (model_prob : matrix)
    (target : list Z) σ (rows : matrix) :
  σ !! LabelSmoothing.one_hot self = Some rows →
  outcome (LabelSmoothing.forward self model_prob target σ)
  = forward_value rows (LabelSmoothing.confidence self) model_prob target.
Proof.
  intros Hl.
  unfold LabelSmoothing.forward, LabelSmoothing.true_dist, forward_value.
  unfold TorchRef.repeat.
  rewrite !bind_run, (load_run _ _ _ Hl). unfold alloc.
  set (l2 := fresh (dom σ)).
  set (td0 := concat (replicate (length model_prob) rows)).
  rewrite (bind_run (TorchRef.scatter_ l2 _ _)). unfold TorchRef.scatter_.
  rewrite (bind_run (load l2)), (load_run l2 _ td0)
    by (by rewrite lookup_insert_eq).
  destruct (Nat.eqb (length target) (length td0)); [|done].
  rewrite (bind_run (lift _)). unfold lift.
  destruct (mapM _ (zip td0 target)) as [td|e]; [|done].
  unfold write. rewrite insert_insert_eq.
  unfold mret, M_ret.
  rewrite (bind_run (TorchRef.kl_div _ _)). unfold TorchRef.kl_div.
  rewrite (bind_run (load l2)), (load_run l2 _ td)
    by (by rewrite lookup_insert_eq).
  destruct (Torch.same_shape model_prob td); [|done].
  unfold alloc, TorchRef.sum_last.
  set (σ3 := <[fresh _ := _]> (<[l2 := td]> σ)).
  rewrite (bind_run (load _)).
  erewrite (load_run _ σ3) by (unfold σ3; by rewrite lookup_insert_eq).
  unfold alloc, outcome. simpl. by rewrite lookup_insert_eq.
Qed.

End forward_value.

(** * Construction: failures and the default ignored set *)

Section init_claims.
Local Open Scope Z_scope.
Implicit Types (σ : store) (I : list Z).

Lemma init_unfold (s : float) (V : Z) (oI : option (list Z)) σ :
  LabelSmoothing.__init__ s V oI σ
  = (smoothing_value ←
       lift (F.truediv s (F.of_Z (V - 1 - Py.len (default [] oI)))) ;
     one_hot ← TorchRef.zeros V ;
     one_hot ← TorchRef.fill_ one_hot smoothing_value ;
     _ ← for_each (default [] oI)
           (λ idx, TorchRef.setitem one_hot idx (Fin 0)) ;
     one_hot ← TorchRef.unsqueeze0 one_hot ;
     mret (LabelSmoothing.Build (F.sub (Fin 1) s) one_hot)) σ.
Proof. unfold LabelSmoothing.__init__. by destruct oI. Qed.

Lemma init_zero_division (s : float) (V : Z) (oI : option (list Z)) σ :
  V - 1 - Py.len (default [] oI) = 0 →
  LabelSmoothing.__init__ s V oI σ = (Raise ZeroDivisionError, σ).
Proof.
  intros Hd. rewrite init_unfold, bind_run. unfold lift, F.truediv.
  by rewrite is_zero_of_Z, bool_decide_eq_true_2.
Qed.

Lemma init_negative_size (s : float) (V : Z) (oI : option (list Z)) σ :
  V - 1 - Py.len (default [] oI) ≠ 0 → V < 0 →
  LabelSmoothing.__init__ s V oI σ = (Raise RuntimeError, σ).
Proof.
  intros Hd HV. rewrite init_unfold, bind_run. unfold lift, F.truediv.
  rewrite is_zero_of_Z, bool_decide_eq_false_2 by done.
  rewrite bind_run. unfold TorchRef.zeros.
  by destruct (Z.ltb_spec V 0); [|lia].
Qed.

Lemma init_index_error (s : float) (V : Z) (oI : option (list Z)) σ :
  V - 1 - Py.len (default [] oI) ≠ 0 → 0 ≤ V →
  Exists (λ idx, ¬ (- V ≤ idx < V)) (default [] oI) →
  ∃ σ', LabelSmoothing.__init__ s V oI σ = (Raise IndexError, σ').
Proof.
  intros Hd HV Hex. rewrite init_unfold, bind_run. unfold lift, F.truediv.
  rewrite is_zero_of_Z, bool_decide_eq_false_2 by done.
  rewrite bind_run, zeros_run by done.
  set (l := fresh (dom σ)).
  rewrite bind_run, (fill_run l _ _ [replicate (Z.to_nat V) (Fin 0)])
    by (by rewrite lookup_insert_eq).
  rewrite insert_insert_eq. cbn [map]. rewrite fmap_replicate.
  set (sv := F.div s _).
  assert (Hlen : Py.len (replicate (Z.to_nat V) sv) = V).
  { unfold Py.len. rewrite length_replicate. lia. }
  rewrite bind_run.
  destruct (for_each_setitem_raise (default [] oI)
              (replicate (Z.to_nat V) sv)
              (<[l := [replicate (Z.to_nat V) sv]]> σ) l)
    as [σ' Hrun]; [by rewrite lookup_insert_eq|by rewrite Hlen|].
  rewrite Hrun. eauto.
Qed.

(** A construction without ignored indices that succeeds. *)
Lemma init_no_ignore_inv (s : float) (V : Z) (oI : option (list Z)) σ
    self σ' :
  default [] oI = [] →
  LabelSmoothing.__init__ s V oI σ = (Ok self, σ') →
  self = LabelSmoothing.Build (F.sub (Fin 1) s) (fresh (dom σ))
  ∧ σ' = <[fresh (dom σ)
           := [replicate (Z.to_nat V) (F.div s (F.of_Z (V - 1)))]]> σ.
Proof.
  intros HI Hrun.
  assert (HdI : V - 1 - Py.len (default [] oI) = V - 1).
  { rewrite HI. unfold Py.len. simpl. lia. }
  destruct (decide (V - 1 = 0)) as [Hd|Hd].
  { rewrite init_zero_division in Hrun by lia. done. }
  destruct (decide (V < 0)) as [HV|HV].
  { rewrite init_negative_size in Hrun by lia. done. }
  rewrite (init_run s V oI σ) in Hrun; [|lia|lia|by rewrite HI].
  rewrite HdI, HI in Hrun. by injection Hrun as <- <-.
Qed.

(** Claim C5, as the code has it.  Construction checks nothing itself:
    it fails with Python's [ZeroDivisionError] exactly when the
    denominator [V - 1 - |ignore_indices|] is 0.  With a non-zero
    denominator (negative ones included) it succeeds unless the vocabulary
    size is negative or an ignored index lies outside [-V, V). *)
Theorem init_failure (s : float) (V : Z) (oI : option (list Z)) σ :
  let I := default [] oI in
  let d := V - 1 - Py.len I in
  (d = 0 →
     LabelSmoothing.__init__ s V oI σ = (Raise ZeroDivisionError, σ))
  ∧ (d ≠ 0 → V < 0 →
     LabelSmoothing.__init__ s V oI σ = (Raise RuntimeError, σ))
  ∧ (d ≠ 0 → 0 ≤ V → Exists (λ idx, ¬ (- V ≤ idx < V)) I →
     ∃ σ', LabelSmoothing.__init__ s V oI σ = (Raise IndexError, σ'))
  ∧ (d ≠ 0 → 0 ≤ V → Forall (λ idx, - V ≤ idx < V) I →
     ∃ self σ', LabelSmoothing.__init__ s V oI σ = (Ok self, σ')).
Proof.
  intros I d. split; [|split; [|split]].
  - apply init_zero_division.
  - apply init_negative_size.
  - apply init_index_error.
  - intros Hd HV Hall. do 2 eexists. by apply init_run.
Qed.

Lemma init_failure_witness :
  (∃ self σ',
     LabelSmoothing.__init__ (Fin 0.4) 5 (Some [0]) ∅ = (Ok self, σ'))
  ∧ LabelSmoothing.__init__ (Fin 0.4) 2 (Some [0]) ∅
    = (Raise ZeroDivisionError, ∅).
Proof.
  split.
  - apply (init_failure (Fin 0.4) 5 (Some [0]) ∅);
      [by vm_compute|lia|by repeat constructor].
  - by apply (init_failure (Fin 0.4) 2 (Some [0]) ∅).
Defined.

(** Claim C5 as stated fails: with a vocabulary of 2 and both indices
    ignored the denominator is -1, and construction succeeds. *)
Lemma init_negative_denominator_accepted :
  2 - 1 - Py.len [0; 1] ≤ 0
  ∧ ∃ self σ',
      LabelSmoothing.__init__ (Fin 0.4) 2 (Some [0; 1]) ∅ = (Ok self, σ')
      ∧ σ' !! LabelSmoothing.one_hot self = Some [[Fin 0; Fin 0]].
Proof.
  split; [by vm_compute|].
  do 2 eexists. split.
  - apply (init_run (Fin 0.4) 2 (Some [0; 1]) ∅);
      [by vm_compute|lia|by repeat constructor].
  - cbn [LabelSmoothing.one_hot]. by rewrite lookup_insert_eq.
Qed.

(** Claim C10.  Omitting [ignore_indices] is the same as passing the empty
    list: the two constructions have the same outcome; no entry of the
    template is zeroed and every entry is [smoothing / (V - 1)]; and for
    two instances built one after the other, one without the argument and
    one with the empty list, [forward] has the same outcome on every
    input. *)
Theorem init_default_ignore_indices (s : float) (V : Z) σ :
  LabelSmoothing.__init__ s V None σ
  = LabelSmoothing.__init__ s V (Some []) σ
  ∧ (0 ≤ V → V ≠ 1 →
     ∃ self σ',
       LabelSmoothing.__init__ s V None σ = (Ok self, σ')
       ∧ σ' !! LabelSmoothing.one_hot self
         = Some [replicate (Z.to_nat V) (F.div s (F.of_Z (V - 1)))])
  ∧ (∀ self1 σ1 self2 σ2 (model_prob : matrix) (target : list Z),
       LabelSmoothing.__init__ s V None σ = (Ok self1, σ1) →
       LabelSmoothing.__init__ s V (Some []) σ1 = (Ok self2, σ2) →
       LabelSmoothing.one_hot self1 ≠ LabelSmoothing.one_hot self2
       ∧ outcome (LabelSmoothing.forward self1 model_prob target σ2)
         = outcome (LabelSmoothing.forward self2 model_prob target σ2)).
Proof.
  split; [reflexivity|]. split.
  - intros HV H1. do 2 eexists. split.
    + apply (init_run s V None σ); [simpl; unfold Py.len; simpl; lia|done|].
      constructor.
    + cbn [LabelSmoothing.one_hot]. rewrite lookup_insert_eq.
      unfold template. cbn [default foldl]. unfold Py.len. cbn [length].
      by replace (V - 1 - Z.of_nat 0) with (V - 1) by lia.
  - intros self1 σ1 self2 σ2 model_prob target H1 H2.
    apply init_no_ignore_inv in H1 as [-> ->]; [|done].
    apply init_no_ignore_inv in H2 as [-> ->]; [|done].
    cbn [LabelSmoothing.one_hot].
    set (tpl := replicate _ _).
    set (l1 := fresh (dom σ)).
    set (σ1 := <[l1 := [tpl]]> σ).
    set (l2 := fresh (dom σ1)).
    assert (Hne : l2 ≠ l1).
    { apply (fresh_ne σ1 l1 [tpl]). unfold σ1. by rewrite lookup_insert_eq. }
    split; [done|].
    rewrite (forward_outcome _ _ _ _ [tpl]).
    + rewrite (forward_outcome _ _ _ _ [tpl]); [done|].
      cbn [LabelSmoothing.one_hot]. by rewrite lookup_insert_eq.
    + cbn [LabelSmoothing.one_hot]. rewrite lookup_insert_ne by done.
      unfold σ1. by rewrite lookup_insert_eq.
Qed.

Lemma init_default_ignore_indices_witness :
  ∃ self σ',
    LabelSmoothing.__init__ (Fin 0.4) 5 None ∅ = (Ok self, σ')
    ∧ LabelSmoothing.__init__ (Fin 0.4) 5 (Some []) ∅ = (Ok self, σ')
    ∧ σ' !! LabelSmoothing.one_hot self
      = Some [replicate 5 (F.div (Fin 0.4) (F.of_Z 4))].
Proof.
  destruct (init_default_ignore_indices (Fin 0.4) 5 ∅)
    as (Heq & Htpl & _).
  destruct Htpl as (self & σ' & Hinit & Hlook); [lia..|].
  exists self, σ'. split; [exact Hinit|]. split; [|exact Hlook].
  by rewrite <- Heq.
Defined.

End init_claims.

(** * The template is never written by [forward] *)

Section frame.
Implicit Types (σ : store) (l : loc).

Lemma keeps_ret {A} (l0 : loc) (a : A) (Q : A → Prop) :
  Q a → keeps l0 (mret a) Q.
Proof. intros Ha σ v Hv. split; [done|]. by intros ? [= <-]. Qed.

Lemma keeps_raise {A} (l0 : loc) (e : exn) (Q : A → Prop) :
  keeps l0 (raise e) Q.
Proof. intros σ v Hv. by split. Qed.

Lemma keeps_lift {A} (l0 : loc) (r : result A) :
  keeps l0 (lift r) (λ _, True).
Proof. intros σ v Hv. by split. Qed.

Lemma keeps_bind {A B} (l0 : loc) (m : M A) (k : A → M B) (Q : A → Prop)
    (Q' : B → Prop) :
  keeps l0 m Q → (∀ a, Q a → keeps l0 (k a) Q') → keeps l0 (m ≫= k) Q'.
Proof.
  intros Hm Hk σ v Hv. rewrite bind_run.
  destruct (Hm σ v Hv) as [Hkeep HQ].
  destruct (m σ) as [[a|e] σ']; simpl in *; [|by split].
  apply (Hk a); [by apply HQ|done].
Qed.

Lemma keeps_weaken {A} (l0 : loc) (m : M A) (Q Q' : A → Prop) :
  keeps l0 m Q → (∀ a, Q a → Q' a) → keeps l0 m Q'.
Proof.
  intros Hm HQ σ v Hv. destruct (Hm σ v Hv) as [? Ha].
  split; [done|]. intros a Hr. by apply HQ, Ha.
Qed.

(** A new tensor is not the protected one. *)
Lemma keeps_alloc (l0 : loc) (t : matrix) :
  keeps l0 (alloc t) (λ l, l ≠ l0).
Proof.
  intros σ v Hv. unfold alloc. simpl.
  pose proof (fresh_ne σ l0 v Hv) as Hne. split.
  - by rewrite lookup_insert_ne.
  - by intros ? [= <-].
Qed.

Lemma keeps_load (l0 : loc) l : keeps l0 (load l) (λ _, True).
Proof.
  intros σ v Hv. unfold load. by destruct (σ !! l); simpl; split.
Qed.

Lemma keeps_write (l0 : loc) l (t : matrix) :
  l ≠ l0 → keeps l0 (write l t) (λ _, True).
Proof.
  intros Hne σ v Hv. unfold write. simpl. split; [|done].
  by rewrite lookup_insert_ne.
Qed.

Lemma keeps_repeat (l0 : loc) l (count : nat) :
  keeps l0 (TorchRef.repeat l count) (λ l', l' ≠ l0).
Proof.
  unfold TorchRef.repeat.
  eapply keeps_bind; [apply keeps_load|]. intros rows _.
  apply keeps_alloc.
Qed.

(** The in-place [scatter_] writes its own tensor only. *)
Lemma keeps_scatter (l0 : loc) l (index : list Z) (v : float) :
  l ≠ l0 → keeps l0 (TorchRef.scatter_ l index v) (λ _, True).
Proof.
  intros Hne. unfold TorchRef.scatter_.
  eapply keeps_bind; [apply keeps_load|]. intros rows _.
  destruct (Nat.eqb _ _); [|apply keeps_raise].
  eapply keeps_bind; [apply keeps_lift|]. intros rows' _.
  by apply keeps_write.
Qed.

Lemma keeps_kl_div (l0 : loc) (input : matrix) l :
  keeps l0 (TorchRef.kl_div input l) (λ l', l' ≠ l0).
Proof.
  unfold TorchRef.kl_div.
  eapply keeps_bind; [apply keeps_load|]. intros rows _.
  destruct (Torch.same_shape _ _); [apply keeps_alloc|apply keeps_raise].
Qed.

Lemma keeps_sum_last (l0 : loc) l :
  keeps l0 (TorchRef.sum_last l) (λ l', l' ≠ l0).
Proof.
  unfold TorchRef.sum_last.
  eapply keeps_bind; [apply keeps_load|]. intros rows _.
  apply keeps_alloc.
Qed.

Lemma keeps_true_dist (self : LabelSmoothing.t) (model_prob : matrix)
    (target : list Z) :
  keeps (LabelSmoothing.one_hot self)
    (LabelSmoothing.true_dist self model_prob target)
    (λ td, td ≠ LabelSmoothing.one_hot self).
Proof.
  unfold LabelSmoothing.true_dist.
  eapply keeps_bind; [apply keeps_repeat|]. intros td Htd.
  eapply keeps_bind; [by apply keeps_scatter|]. intros _ _.
  by apply keeps_ret.
Qed.

Lemma keeps_forward (self : LabelSmoothing.t) (model_prob : matrix)
    (target : list Z) :
  keeps (LabelSmoothing.one_hot self)
    (LabelSmoothing.forward self model_prob target)
    (λ loss, loss ≠ LabelSmoothing.one_hot self).
Proof.
  unfold LabelSmoothing.forward.
  eapply keeps_bind; [apply keeps_true_dist|]. intros td _.
  eapply keeps_bind; [apply keeps_kl_div|]. intros loss _.
  apply keeps_sum_last.
Qed.

Lemma keeps_forward_calls (self : LabelSmoothing.t)
    (calls : list (matrix * list Z)) :
  keeps (LabelSmoothing.one_hot self)
    (LabelSmoothing.forward_calls self calls) (λ _, True).
Proof.
  induction calls as [|[model_prob target] calls IH]; simpl.
  - by apply keeps_ret.
  - eapply keeps_bind; [apply keeps_forward|]. intros _ _. exact IH.
Qed.

(** Without its template in the store, [forward] stops at once. *)
Lemma true_dist_dangling (self : LabelSmoothing.t) (model_prob : matrix)
    (target : list Z) σ :
  σ !! LabelSmoothing.one_hot self = None →
  LabelSmoothing.true_dist self model_prob target σ
  = (Raise RuntimeError, σ).
Proof.
  intros Hnone. unfold LabelSmoothing.true_dist, TorchRef.repeat.
  rewrite !bind_run. unfold load. by rewrite Hnone.
Qed.

(** Claim C7.  Whatever the instance and the store, a sequence of [forward]
    calls leaves the contents of the [one_hot] buffer as they were; the
    tensor that receives the scatter-write is a new one, different from
    the buffer. *)
Theorem template_unchanged (self : LabelSmoothing.t)
    (calls : list (matrix * list Z)) σ :
  (LabelSmoothing.forward_calls self calls σ).2
    !! LabelSmoothing.one_hot self
  = σ !! LabelSmoothing.one_hot self
  ∧ (∀ (model_prob : matrix) (target : list Z),
       (LabelSmoothing.forward self model_prob target σ).2
         !! LabelSmoothing.one_hot self
       = σ !! LabelSmoothing.one_hot self)
  ∧ (∀ (model_prob : matrix) (target : list Z) td σ',
       LabelSmoothing.true_dist self model_prob target σ = (Ok td, σ') →
       td ≠ LabelSmoothing.one_hot self
       ∧ σ' !! LabelSmoothing.one_hot self
         = σ !! LabelSmoothing.one_hot self).
Proof.
  destruct (σ !! LabelSmoothing.one_hot self) as [v|] eqn:Hv.
  - split; [by apply (keeps_forward_calls self calls σ v)|].
    split; [intros; by apply (keeps_forward self _ _ σ v)|].
    intros model_prob target td σ' Hrun.
    destruct (keeps_true_dist self model_prob target σ v Hv) as [Hk Hq].
    rewrite Hrun in Hk, Hq. simpl in *. split; [by apply Hq|done].
  - assert (Hfwd : ∀ model_prob target,
      LabelSmoothing.forward self model_prob target σ
      = (Raise RuntimeError, σ)).
    { intros. unfold LabelSmoothing.forward.
      by rewrite bind_run, true_dist_dangling. }
    split; [|split].
    + destruct calls as [|[model_prob target] calls]; simpl; [done|].
      by rewrite bind_run, Hfwd.
    + intros. by rewrite Hfwd.
    + intros model_prob target td σ' Hrun.
      by rewrite true_dist_dangling in Hrun.
Qed.

Lemma template_unchanged_witness :
  ∃ self σ1 td σ2,
    LabelSmoothing.__init__ (Fin 0.4) 5 (Some [0%Z]) ∅ = (Ok self, σ1)
    ∧ LabelSmoothing.true_dist self [replicate 5 (Fin 0)] [2%Z] σ1
      = (Ok td, σ2)
    ∧ td ≠ LabelSmoothing.one_hot self
    ∧ σ2 !! LabelSmoothing.one_hot self = σ1 !! LabelSmoothing.one_hot self
    ∧ is_Some (σ1 !! LabelSmoothing.one_hot self).
Proof.
  destruct (init_true_dist_run 0.4 5 [0%Z] ∅ [replicate 5 (Fin 0)] [2%Z])
    as (self & σ1 & td & σ2 & Hinit & _ & Htpl & Hrun & _).
  - lia.
  - by repeat constructor.
  - by vm_compute.
  - reflexivity.
  - by repeat constructor.
  - exists self, σ1, td, σ2. split; [exact Hinit|]. split; [exact Hrun|].
    destruct (template_unchanged self [] σ1) as (_ & _ & Hfresh).
    destruct (Hfresh _ _ _ _ Hrun) as [Hne Hsame].
    split; [exact Hne|]. split; [exact Hsame|]. by rewrite Htpl.
Defined.

End frame.

(** * Transposing a batch of sentences *)

Section input_transpose.
Context {A : Type}.
Implicit Types (sents : list (list A)) (pad : A) (s : list A).

Lemma map_seq_lookup {B C} (l : list C) (f : option C → B) :
  map (λ k, f (l !! k)) (seq 0 (length l)) = map (λ x, f (Some x)) l.
Proof.
  apply list_eq. intros k. rewrite !list_lookup_fmap.
  destruct (l !! k) as [x|] eqn:Hk; simpl.
  - rewrite lookup_seq_lt by (by eapply lookup_lt_Some). simpl.
    by rewrite Hk.
  - rewrite lookup_seq_ge; [done|]. by apply lookup_ge_None.
Qed.

(** Row [i] holds entry [i] of every sentence, or the padding token where
    the sentence is too short; no lookup fails. *)
Lemma transpose_row_ok sents pad (i : nat) :
  transpose_row sents pad (Py.len sents) i
  = Ok (map (λ s, default pad (s !! i)) sents).
Proof.
  unfold transpose_row, PySeq.range, Py.len. rewrite Nat2Z.id.
  rewrite (mapM_ok_map _
    (λ k, from_option (λ s, default pad (s !! i)) pad (sents !! k))).
  - f_equal.
    apply (map_seq_lookup sents (from_option (λ s, default pad (s !! i)) pad)).
  - apply Forall_forall. intros k Hk. apply elem_of_seq in Hk.
    destruct (lookup_lt_is_Some_2 sents k) as [s Hs]; [lia|].
    unfold PySeq.getitem. rewrite Hs. cbn. unfold Py.len.
    destruct (Z.ltb_spec (Z.of_nat i) (Z.of_nat (length s))) as [Hlt|Hge].
    + destruct (lookup_lt_is_Some_2 s i) as [x Hx]; [lia|]. by rewrite Hx.
    + by rewrite lookup_ge_None_2 by lia.
Qed.

Lemma transpose_loop_ok sents pad (indices : list nat) :
  ∀ acc,
    transpose_loop sents pad (Py.len sents) indices acc
    = Ok (acc ++ map (λ i, map (λ s, default pad (s !! i)) sents) indices).
Proof.
  induction indices as [|i indices IH]; intros acc; simpl.
  - by rewrite app_nil_r.
  - rewrite transpose_row_ok. cbn. rewrite IH. by rewrite <- app_assoc.
Qed.

Lemma input_transpose_ok sents pad (mx : Z) :
  Py.max (map Py.len sents) = Ok mx →
  input_transpose sents pad
  = Ok (map (λ i, map (λ s, default pad (s !! i)) sents)
          (seq 0 (Z.to_nat mx))).
Proof.
  intros Hmax. unfold input_transpose. rewrite Hmax. cbn.
  by rewrite transpose_loop_ok.
Qed.

End input_transpose.

Section input_transpose_properties.
Context {A : Type}.
Implicit Types (sents : list (list A)) (pad : A) (s : list A).

Lemma max_len_spec sents :
  sents ≠ [] →
  ∃ mx : Z,
    Py.max (map Py.len sents) = Ok mx
    ∧ (0 ≤ mx)%Z
    ∧ (∀ s, s ∈ sents → (length s ≤ Z.to_nat mx)%nat)
    ∧ ∃ s, s ∈ sents ∧ length s = Z.to_nat mx.
Proof.
  intros Hne. destruct (py_max_nonempty (map Py.len sents)) as [mx Hmax].
  { by destruct sents. }
  exists mx. split; [done|].
  apply py_max_spec in Hmax as [Hub Hin].
  apply list_elem_of_fmap in Hin as (s0 & -> & Hs0).
  unfold Py.len in *. split; [lia|]. split.
  - intros s Hs. specialize (Hub (Z.of_nat (length s))).
    rewrite Nat2Z.id. apply Nat2Z.inj_le, Hub.
    apply list_elem_of_fmap. by exists s.
  - exists s0. by rewrite Nat2Z.id.
Qed.

(** An empty batch is refused with the [ValueError] of [max].  For a
    non-empty batch the call returns: the result has [max_len] rows of
    [batch_size] entries each, whatever the lengths of the sentences, and
    entry [(i, k)] is word [i] of sentence [k], or the padding token when
    sentence [k] has no word [i]. *)
Theorem input_transpose_entries sents pad :
  (sents = [] → input_transpose sents pad = Raise ValueError)
  ∧ (sents ≠ [] →
     ∃ (mx : Z) (t : list (list A)),
       Py.max (map Py.len sents) = Ok mx
       ∧ input_transpose sents pad = Ok t
       ∧ length t = Z.to_nat mx
       ∧ Forall (λ row, length row = length sents) t
       ∧ ∀ (i k : nat) s,
           (i < Z.to_nat mx)%nat → sents !! k = Some s →
           entry t i k = Some (default pad (s !! i))).
Proof.
  split; [by intros ->|]. intros Hne.
  destruct (max_len_spec sents Hne) as (mx & Hmax & Hmx & _).
  exists mx. eexists. split; [done|].
  split; [by apply input_transpose_ok|].
  split; [by rewrite length_map, length_seq|]. split.
  - apply Forall_fmap, Forall_forall. intros i _. simpl.
    by rewrite length_map.
  - intros i k s Hi Hk. unfold entry.
    rewrite list_lookup_fmap, lookup_seq_lt by done. simpl.
    by rewrite list_lookup_fmap, Hk.
Qed.

(** Column [k] of the closed form of the transposed batch. *)
Lemma closed_form_column sents pad (k n : nat) s :
  sents !! k = Some s → (length s ≤ n)%nat →
  mapM (λ row, row !! k)
    (map (λ i, map (λ s, default pad (s !! i)) sents) (seq 0 n))
  = Some (s ++ replicate (n - length s) pad).
Proof.
  intros Hk Hs.
  apply mapM_Some, Forall2_same_length_lookup. split.
  { rewrite length_map, length_seq, length_app, length_replicate. lia. }
  intros i row x Hrow Hx.
  rewrite list_lookup_fmap in Hrow.
  destruct (seq 0 n !! i) as [j|] eqn:Hj; [|done].
  apply lookup_seq in Hj as [-> Hi]. simpl in Hrow. injection Hrow as <-.
  rewrite list_lookup_fmap, Hk. simpl. f_equal.
  destruct (decide (i < length s)%nat) as [Hlt|Hge].
  - rewrite lookup_app_l in Hx by done. by rewrite Hx.
  - rewrite lookup_app_r in Hx by lia.
    apply lookup_replicate in Hx as [-> _].
    by rewrite lookup_ge_None_2 by lia.
Qed.



End input_transpose_properties.

Lemma input_transpose_entries_witness :
  input_transpose [[1; 2; 3]; [4]]%Z 0%Z
  = Ok [[1; 4]; [2; 0]; [3; 0]]%Z.
Proof.
  destruct (input_transpose_entries [[1; 2; 3]; [4]]%Z 0%Z) as [_ H].
  destruct H as (mx & t & _ & Hrun & _); [done|].
  rewrite Hrun. f_equal. injection Hrun as <-. reflexivity.
Defined.




(** * Words and ids *)

Section mapM_result.
Context {A B : Type}.

Lemma mapM_ok_Forall2 (f : A → result B) (l : list A) (k : list B) :
  Forall2 (λ x y, f x = Ok y) l k → mapM f l = Ok k.
Proof.
  induction 1 as [|x y l k Hx _ IH]; [done|].
  cbn. rewrite Hx. cbn. by rewrite IH.
Qed.

Lemma mapM_ok_iff (f : A → result B) (l : list A) :
  is_ok (mapM f l) ↔ Forall (λ x, is_ok (f x)) l.
Proof.
  split.
  - intros [k Hk]. apply mapM_ok_inv in Hk.
    induction Hk as [|x y l k Hx _ IH]; constructor; [by exists y|done].
  - induction 1 as [|x l [y Hy] _ [k Hk]]; [by exists []|].
    exists (y :: k). cbn. rewrite Hy. cbn. by rewrite Hk.
Qed.

Lemma mapM_ok_length (f : A → result B) (l : list A) (k : list B) :
  mapM f l = Ok k → length k = length l.
Proof. intros H%mapM_ok_inv. symmetry. by eapply Forall2_length. Qed.

(** Encoding with [f] and decoding with [g] where [g] inverts [f]. *)
Lemma mapM_roundtrip (f : A → result B) (g : B → result A) (l : list A) :
  Forall (λ x, ∃ y, f x = Ok y ∧ g y = Ok x) l →
  ∃ k, mapM f l = Ok k ∧ mapM g k = Ok l ∧ length k = length l.
Proof.
  induction 1 as [|x l (y & Hf & Hg) _ (k & Hk & Hback & Hlen)].
  - by exists [].
  - exists (y :: k). cbn. rewrite Hf, Hg. cbn. rewrite Hk, Hback.
    by rewrite Hlen.
Qed.

End mapM_result.

Section word_ids.
Implicit Types (vocab : Vocab) (sents : batch string).

(** Every word of the batch has an id that the vocabulary maps back to the
    word.  Then [word2id] returns, and [id2word] of its result is the batch
    again. *)
Theorem word2id_id2word_roundtrip sents vocab :
  batch_length sents ≠ 0%nat →
  Forall (λ w, ∃ i, vocab_getitem vocab w = Ok i
                    ∧ idxToLabel_getitem vocab i = Ok w)
    (batch_words sents) →
  ∃ ids,
    word2id sents vocab = Ok ids
    ∧ batch_shape ids = batch_shape sents
    ∧ batch_length ids = batch_length sents
    ∧ id2word ids vocab = Ok sents.
Proof.
  intros Hne Hwords. destruct sents as [l|l]; simpl in *.
  - destruct (mapM_roundtrip _ _ l Hwords) as (k & Hk & Hback & Hlen).
    exists (Flat k). unfold word2id, id2word, word2id_flat, id2word_flat.
    destruct l as [|w l]; [done|]. rewrite Hk. cbn.
    destruct k as [|i k]; [done|]. rewrite Hback. by rewrite Hlen.
  - assert (Hall : Forall (λ s, ∃ ids,
        mapM (vocab_getitem vocab) s = Ok ids
        ∧ mapM (idxToLabel_getitem vocab) ids = Ok s) l).
    { clear Hne. induction l as [|s l IH]; [constructor|].
      simpl in Hwords. apply Forall_app in Hwords as [Hs Hl].
      constructor; [|by apply IH].
      destruct (mapM_roundtrip _ _ s Hs) as (k & ? & ? & _). eauto. }
    destruct (mapM_roundtrip (λ s, mapM (vocab_getitem vocab) s)
                (λ s, mapM (idxToLabel_getitem vocab) s) l Hall)
      as (k & Hk & Hback & Hlen).
    exists (Nested k). unfold word2id, id2word, word2id_nested, id2word_nested.
    destruct l as [|s l]; [done|]. rewrite Hk. cbn.
    destruct k as [|i k]; [done|]. rewrite Hback. cbn.
    split; [done|]. split; [|split; [exact Hlen|done]].
    change (Some (map length (i :: k)) = Some (map length (s :: l))).
    f_equal. apply mapM_ok_inv in Hk. clear -Hk.
    induction Hk as [|s' ids l' k' Hs _ IH]; [done|].
    simpl. f_equal; [|done]. by apply mapM_ok_length in Hs.
Qed.

Lemma word2id_id2word_roundtrip_witness :
  ∃ ids,
    word2id (Nested [["the"; "cat"]; ["cat"]]) example_vocab = Ok ids
    ∧ id2word ids example_vocab = Ok (Nested [["the"; "cat"]; ["cat"]]).
Proof.
  destruct (word2id_id2word_roundtrip (Nested [["the"; "cat"]; ["cat"]])
              example_vocab) as (ids & Hrun & _ & _ & Hback).
  - simpl. lia.
  - simpl. repeat constructor; eexists; split; reflexivity.
  - by exists ids.
Defined.

Lemma Forall_concat {A} (P : A → Prop) (l : list (list A)) :
  Forall P (concat l) ↔ Forall (Forall P) l.
Proof.
  induction l as [|x l IH]; simpl.
  - split; constructor.
  - rewrite Forall_app, Forall_cons. by rewrite IH.
Qed.

(** [word2id] returns exactly when the batch is not empty and every word can
    be looked up; an empty batch raises [IndexError], whatever the
    vocabulary holds. *)
Theorem word2id_returns sents vocab :
  (is_ok (word2id sents vocab)
   ↔ batch_length sents ≠ 0%nat
     ∧ Forall (λ w, is_ok (vocab_getitem vocab w)) (batch_words sents))
  ∧ (batch_length sents = 0%nat → word2id sents vocab = Raise IndexError).
Proof.
  split.
  - destruct sents as [l|l]; simpl; unfold word2id, word2id_flat,
      word2id_nested.
    + destruct l as [|w l]; [split; [by intros [? ?]|by intros [? _]]|].
      rewrite <- mapM_ok_iff. split.
      * intros [ids Hids]. split; [done|].
        destruct (mapM _ (w :: l)) as [k|e]; [by exists k|done].
      * intros [_ [k Hk]]. rewrite Hk. by eexists.
    + destruct l as [|s l]; [split; [by intros [? ?]|by intros [? _]]|].
      split.
      * intros [ids Hids]. split; [done|].
        assert (Hok : is_ok (mapM (λ s, mapM (vocab_getitem vocab) s)
                               (s :: l))).
        { destruct (mapM _ (s :: l)) as [k|e]; [by exists k|done]. }
        apply mapM_ok_iff in Hok. apply Forall_concat.
        eapply Forall_impl; [exact Hok|]. intros s' Hs'.
        by apply mapM_ok_iff.
      * intros [_ Hall]. apply Forall_concat in Hall.
        assert (Hok : is_ok (mapM (λ s, mapM (vocab_getitem vocab) s)
                               (s :: l))).
        { apply mapM_ok_iff. eapply Forall_impl; [exact Hall|].
          intros s' Hs'. by apply mapM_ok_iff. }
        destruct Hok as [k Hk]. rewrite Hk. by eexists.
  - destruct sents as [[|? ?]|[|? ?]]; simpl; done.
Qed.

Lemma word2id_returns_witness :
  is_ok (word2id (Flat ["the"; "dog"]) example_vocab)
  ∧ word2id (Nested []) example_vocab = Raise IndexError.
Proof.
  split.
  - apply (word2id_returns (Flat ["the"; "dog"]) example_vocab).
    split; [simpl; lia|]. simpl. repeat constructor; by eexists.
  - by apply (word2id_returns (Nested []) example_vocab).
Defined.

End word_ids.

(** * From sentences to the input tensor *)

Section to_input_variable.
Implicit Types (vocab : Vocab) (sequences : list (list string)).

Lemma transpose_rows_length {A} (sents : list (list A)) (pad : A) t :
  input_transpose sents pad = Ok t →
  Forall (λ row, length row = length sents) t.
Proof.
  intros Hrun. destruct sents as [|s sents]; [done|].
  destruct (max_len_spec (s :: sents)) as (mx & Hmax & _); [done|].
  rewrite (input_transpose_ok _ pad mx Hmax) in Hrun. injection Hrun as <-.
  apply Forall_fmap, Forall_forall. intros i _. simpl. by rewrite length_map.
Qed.

(** With a vocabulary that has an id for every word (for instance one that
    falls back to an unknown-word id), the tensor has one column per
    sentence: column [k] holds the ids of sentence [k], between the ids of
    the boundary symbols when these are asked for, followed by the id of
    the padding symbol down to the last row. *)
Theorem to_input_variable_columns sequences vocab (id_of : string → Z)
    (cuda training append_boundary_sym : bool) (k : nat)
    (seq : list string) :
  (∀ w, vocab_getitem vocab w = Ok (id_of w)) →
  sequences !! k = Some seq →
  let seq' := if append_boundary_sym
              then ["<s>"] ++ seq ++ ["</s>"] else seq in
  ∃ t : list (list Z),
    to_input_variable sequences vocab cuda training append_boundary_sym
    = Ok t
    ∧ Forall (λ row, length row = length sequences) t
    ∧ (length seq' ≤ length t)%nat
    ∧ mapM (λ row, row !! k) t
      = Some (map id_of seq'
              ++ replicate (length t - length seq') (id_of "<pad>")).
Proof.
  intros Hvocab Hk seq'. unfold to_input_variable.
  set (seqs := if append_boundary_sym
               then map (λ seq, ["<s>"] ++ seq ++ ["</s>"]) sequences
               else sequences).
  assert (Hk' : seqs !! k = Some seq').
  { unfold seqs, seq'. destruct append_boundary_sym; [|done].
    by rewrite list_lookup_fmap, Hk. }
  assert (Hlen : length seqs = length sequences).
  { unfold seqs. destruct append_boundary_sym; [|done]. by rewrite length_map. }
  assert (Hids : word2id_nested seqs vocab = Ok (map (map id_of) seqs)).
  { unfold word2id_nested. destruct seqs as [|s0 seqs0] eqn:Hs; [done|].
    apply mapM_ok_map, Forall_forall. intros s _.
    apply mapM_ok_map, Forall_forall. intros w _. apply Hvocab. }
  rewrite Hids. cbn. rewrite Hvocab. cbn.
  assert (Hk'' : map (map id_of) seqs !! k = Some (map id_of seq')).
  { by rewrite list_lookup_fmap, Hk'. }
  assert (Hne : map (map id_of) seqs ≠ []).
  { intros Hnil. by rewrite Hnil in Hk''. }
  destruct (max_len_spec (map (map id_of) seqs) Hne)
    as (mx & Hmax & Hmx & Hub & _).
  assert (Hs : (length (map id_of seq') ≤ Z.to_nat mx)%nat).
  { apply Hub. by eapply list_elem_of_lookup_2. }
  rewrite (input_transpose_ok _ _ mx Hmax). cbn.
  eexists. split; [by destruct cuda|]. unfold to_cuda.
  rewrite length_map, length_seq. rewrite length_map in Hs.
  split; [|split; [done|]].
  - apply Forall_fmap, Forall_forall. intros i _. simpl.
    by rewrite !length_map.
  - rewrite <- (length_map id_of seq').
    by apply closed_form_column; [|rewrite length_map].
Qed.

End to_input_variable.

Lemma to_input_variable_columns_witness :
  to_input_variable [["the"; "cat"]; ["dog"]] example_vocab false true true
  = Ok [[1; 1]; [4; 3]; [5; 2]; [2; 0]]%Z
  ∧ ∃ t : list (list Z),
      to_input_variable [["the"; "cat"]; ["dog"]] example_vocab false true
        true = Ok t
      ∧ mapM (λ row, row !! 1%nat) t
        = Some ([1; 3; 2] ++ replicate (length t - 3) 0)%Z.
Proof.
  split; [reflexivity|].
  destruct (to_input_variable_columns [["the"; "cat"]; ["dog"]]
              example_vocab
              (λ w, match vocab_getitem example_vocab w with
                    | Ok i => i
                    | Raise _ => 0%Z
                    end)
              false true true 1 ["dog"])
    as (t & Hrun & _ & _ & Hcol).
  - intros w. simpl. by repeat case_match.
  - reflexivity.
  - by exists t.
Defined.

(** * The mask builder on lengths that are not positive *)

Section mask_clipping.
Local Open Scope Z_scope.
Implicit Types (lens : list Z).

(** The valid part of a row of [n] columns for the length [l], as the two
    slice assignments clip it. *)
Lemma mask_row_clipped (v : bool) (l n : Z) :
  0 ≤ n →
  mask_row v l (replicate (Z.to_nat n) 0)
  = replicate (Z.to_nat (Py.adjust_index n l)) (valid_marker v)
    ++ replicate (Z.to_nat (n - Py.adjust_index n l)) (padding_marker v).
Proof.
  intros Hn. apply list_eq. intros j.
  assert (Hk : 0 ≤ Py.adjust_index n l ≤ n).
  { unfold Py.adjust_index. destruct (Z.ltb_spec l 0); lia. }
  unfold mask_row.
  destruct v; rewrite slice_assign_lookup; unfold Py.slice_bounds,
    Py.len; simpl; rewrite length_replicate, Z2Nat.id by done;
    set (k := Py.adjust_index n l) in *;
    destruct (decide (j < Z.to_nat k)%nat) as [Hj|Hj].
  - rewrite lookup_app_l by (rewrite length_replicate; lia).
    rewrite !lookup_replicate_2 by lia. simpl. zcompare.
  - rewrite lookup_app_r by (rewrite length_replicate; lia).
    rewrite length_replicate.
    destruct (decide (j < Z.to_nat n)%nat).
    + rewrite !lookup_replicate_2 by lia. simpl. zcompare.
    + rewrite !lookup_ge_None_2 by (rewrite length_replicate; lia). done.
  - rewrite lookup_app_l by (rewrite length_replicate; lia).
    rewrite !lookup_replicate_2 by lia. simpl. zcompare.
  - rewrite lookup_app_r by (rewrite length_replicate; lia).
    rewrite length_replicate.
    destruct (decide (j < Z.to_nat n)%nat).
    + rewrite !lookup_replicate_2 by lia. simpl. zcompare.
    + rewrite !lookup_ge_None_2 by (rewrite length_replicate; lia). done.
Qed.

(** Lengths that are zero or negative are not refused.  When the largest
    length [mx] is at least 0 the call returns a mask of [mx] columns, and
    the row of a length [l] has [l] valid entries when [l >= 0] (none for
    [l = 0]) and, as a Python slice bound counts from the end,
    [max(mx + l, 0)] valid entries when [l < 0]; the valid entries come
    first. *)
Theorem mask_rows_clipped lens (cuda v : bool) (mx : Z) :
  Py.max lens = Ok mx →
  0 ≤ mx →
  ∃ mask,
    length_array_to_mask_tensor lens cuda v = Ok mask
    ∧ length mask = length lens
    ∧ ∀ (i : nat) (l : Z),
        lens !! i = Some l →
        let k := if l <? 0 then Z.max (mx + l) 0 else l in
        0 ≤ k ≤ mx
        ∧ mask !! i
          = Some (replicate (Z.to_nat k) (valid_marker v)
                  ++ replicate (Z.to_nat (mx - k)) (padding_marker v)).
Proof.
  intros Hmax Hmx. eexists.
  split; [by apply length_array_to_mask_tensor_ok|].
  split; [by rewrite length_map|].
  intros i l Hi k.
  pose proof (py_max_spec lens mx Hmax) as [Hub _].
  specialize (Hub l (list_elem_of_lookup_2 _ _ _ Hi)).
  assert (Hk : Py.adjust_index mx l = k).
  { unfold Py.adjust_index, k. destruct (Z.ltb_spec l 0); lia. }
  split; [unfold k; destruct (Z.ltb_spec l 0); lia|].
  rewrite list_lookup_fmap, Hi. simpl.
  by rewrite mask_row_clipped, Hk.
Qed.

Lemma mask_rows_clipped_witness :
  ∃ mask,
    length_array_to_mask_tensor [3; 0; -1] false false = Ok mask
    ∧ mask !! 2%nat = Some ([0; 0] ++ [1]).
Proof.
  destruct (mask_rows_clipped [3; 0; -1] false false 3 eq_refl)
    as (mask & Hrun & _ & Hrows); [lia|].
  exists mask. split; [exact Hrun|].
  exact (proj2 (Hrows 2%nat (-1) eq_refl)).
Defined.

End mask_clipping.

(** * The attention call in closed form *)

Section attention_run.
Local Open Scope R_scope.
Implicit Types (scores w : list vector) (mask : list (list Z))
  (srow : vector) (mrow : list Z) (enc : list matrix).

Lemma map_zip_uncurry {A B C} (f : A → B → C) (l : list A) (k : list B) :
  map (λ p, f p.1 p.2) (zip l k) = zip_with f l k.
Proof.
  revert k. induction l as [|x l IH]; intros [|y k]; simpl; [done..|].
  by rewrite IH.
Qed.

Lemma bmm_vecmat_run w enc :
  Forall2 (λ wrow e, length e = length wrow ∧ Torch.rectangular e = true)
    w enc →
  Torch.bmm_vecmat w enc = Ok (zip_with context_row w enc).
Proof.
  intros H. unfold Torch.bmm_vecmat.
  rewrite (Forall2_length _ _ _ H), Nat.eqb_refl.
  rewrite (mapM_ok_map _ (λ p, context_row p.1 p.2)).
  - by rewrite map_zip_uncurry.
  - eapply Forall_impl; [apply Forall2_zip, H|].
    intros [wrow e] [Hlen Hrect]. simpl in *. unfold Torch.vecmat.
    by rewrite Hlen, Nat.eqb_refl, Hrect.
Qed.

Lemma softmax_rows_shape (filled : list vector) enc scores :
  Forall2 (λ f s, length f = length s) filled scores →
  Forall2 (λ e s, length e = length s ∧ Torch.rectangular e = true)
    enc scores →
  Forall2 (λ wrow e, length e = length wrow ∧ Torch.rectangular e = true)
    (Torch.softmax filled) enc.
Proof.
  intros Hf He. unfold Torch.softmax. apply Forall2_fmap_l.
  apply Forall2_same_length_lookup. split.
  { by rewrite (Forall2_length _ _ _ Hf), (Forall2_length _ _ _ He). }
  intros b f e Hfb Heb.
  destruct (lookup_lt_is_Some_2 scores b) as [s Hsb].
  { rewrite <- (Forall2_length _ _ _ He). by eapply lookup_lt_Some. }
  pose proof (Forall2_lookup_lr _ _ _ _ _ _ Hf Hfb Hsb) as Hlen.
  pose proof (Forall2_lookup_lr _ _ _ _ _ _ He Heb Hsb) as [Hlen' Hrect].
  split; [|done]. by rewrite softmax_row_length, Hlen.
Qed.

(** The call with a mask of the shape of the scores. *)
Lemma attention_masked_run (h_t : list vector) enc (lin : list matrix)
    mask scores :
  Torch.bmm_matvec lin h_t = Ok scores →
  Forall2 (λ s m, length s = length m) scores mask →
  Forall2 (λ e s, length e = length s ∧ Torch.rectangular e = true)
    enc scores →
  dot_prod_attention h_t enc lin (Some mask)
  = Ok (zip_with context_row
          (Torch.softmax (zip_with masked_row scores mask)) enc,
        Torch.softmax (zip_with masked_row scores mask)).
Proof.
  intros Hs Hm He. unfold dot_prod_attention.
  rewrite Hs. cbn. rewrite masked_fill_ok by done. cbn.
  rewrite bmm_vecmat_run; [done|].
  apply softmax_rows_shape with (scores := scores); [|done].
  apply Forall2_same_length_lookup. split.
  { rewrite length_zip_with, (Forall2_length _ _ _ Hm). lia. }
  intros b f s Hfb Hsb. rewrite lookup_zip_with, Hsb in Hfb. simpl in Hfb.
  destruct (mask !! b) as [m|] eqn:Hmb; simpl in Hfb; [|done].
  injection Hfb as <-. apply masked_row_length.
  by apply (Forall2_lookup_lr _ _ _ _ _ _ Hm Hsb Hmb).
Qed.

(** The call without a mask. *)
Lemma attention_unmasked_run (h_t : list vector) enc (lin : list matrix)
    scores :
  Torch.bmm_matvec lin h_t = Ok scores →
  Forall2 (λ e s, length e = length s ∧ Torch.rectangular e = true)
    enc scores →
  dot_prod_attention h_t enc lin None
  = Ok (zip_with context_row (Torch.softmax scores) enc,
        Torch.softmax scores).
Proof.
  intros Hs He. unfold dot_prod_attention. rewrite Hs. cbn.
  rewrite bmm_vecmat_run; [done|].
  apply softmax_rows_shape with (scores := scores); [|done].
  by apply Forall_Forall2_diag, Forall_forall.
Qed.

End attention_run.

(** * Attention without a mask *)

Section attention_unmasked.
Local Open Scope R_scope.
Implicit Types (scores w : list vector) (srow : vector) (enc : list matrix).

Lemma masked_row_zero_mask srow :
  masked_row srow (map (λ _, 0%Z) srow) = srow.
Proof.
  unfold masked_row. induction srow as [|a srow IH]; [done|].
  cbn. by rewrite IH.
Qed.

Lemma unmasked_exp_zero_mask srow :
  zip_with unmasked_exp srow (map (λ _, 0%Z) srow)
  = map (λ a, Rtrigo_def.exp (real_of a)) srow.
Proof.
  induction srow as [|a srow IH]; [done|]. cbn. by rewrite IH.
Qed.

(** The softmax of a row of finite scores, in real numbers. *)
Lemma softmax_finite_row srow :
  Forall finite srow →
  Torch.softmax_row srow
  = map (λ a, Fin (Rtrigo_def.exp (real_of a) / exp_sum srow)) srow.
Proof.
  intros Hfin. destruct srow as [|a srow]; [done|].
  rewrite <- (masked_row_zero_mask (a :: srow)) at 1.
  rewrite softmax_masked_row; [|done|by rewrite length_map|by left].
  unfold unmasked_exp_sum. rewrite unmasked_exp_zero_mask.
  fold (exp_sum (a :: srow)). by rewrite <- list_fmap_compose.
Qed.

Lemma softmax_finite_row_sum srow :
  Forall finite srow → srow ≠ [] →
  0 < exp_sum srow ∧ F.sum (Torch.softmax_row srow) = Fin 1.
Proof.
  intros Hfin Hne. destruct srow as [|a srow]; [done|].
  assert (Hz : (0%Z ∈ map (λ _ : float, 0%Z) (a :: srow))) by (by left).
  split.
  - unfold exp_sum. rewrite <- unmasked_exp_zero_mask.
    apply unmasked_exp_sum_pos; [by rewrite length_map|done].
  - rewrite <- (masked_row_zero_mask (a :: srow)).
    apply softmax_masked_row_sum; [done|by rewrite length_map|done].
Qed.

(** Without a mask the weights are the softmax of the raw scores: for finite
    scores, weight [j] of a row is [exp] of score [j] over the sum of the
    [exp] of the scores of the row, and every row that is not empty sums to
    1. *)
Theorem unmasked_attention_weights (h_t : list vector) enc
    (lin : list matrix) scores :
  Torch.bmm_matvec lin h_t = Ok scores →
  Forall (Forall finite) scores →
  Forall2 (λ e s, length e = length s ∧ Torch.rectangular e = true)
    enc scores →
  ∃ ctx w,
    dot_prod_attention h_t enc lin None = Ok (ctx, w)
    ∧ Forall2 (λ wrow srow,
                 wrow = map (λ a, Fin (Rtrigo_def.exp (real_of a)
                                       / exp_sum srow)) srow
                 ∧ (srow ≠ [] → 0 < exp_sum srow ∧ F.sum wrow = Fin 1))
        w scores.
Proof.
  intros Hs Hfin He. do 2 eexists.
  split; [by apply attention_unmasked_run|].
  unfold Torch.softmax. apply Forall2_fmap_l, Forall_Forall2_diag.
  eapply Forall_impl; [exact Hfin|]. intros srow Hrow. simpl.
  split; [by apply softmax_finite_row|].
  intros Hne. by apply softmax_finite_row_sum.
Qed.

Lemma unmasked_attention_weights_witness :
  let h_t := [[Fin 1]] in
  let lin := [[[Fin 2]; [Fin 1]]] in
  let enc := [[[Fin 1]; [Fin 3]]] in
  ∃ ctx wrow,
    dot_prod_attention h_t enc lin None = Ok (ctx, [wrow])
    ∧ F.sum wrow = Fin 1.
Proof.
  intros h_t lin enc.
  destruct (unmasked_attention_weights h_t enc lin
              [[Fin (2 * 1 + 0); Fin (1 * 1 + 0)]] eq_refl)
    as (ctx & w & Hrun & Hw).
  - repeat constructor; by eexists.
  - by repeat constructor.
  - destruct w as [|wrow w]; [inversion Hw|].
    apply Forall2_cons in Hw as [[_ Hsum] Hw'].
    apply Forall2_nil_inv_r in Hw' as ->.
    exists ctx, wrow. split; [exact Hrun|]. by apply Hsum.
Defined.

(** Omitting the mask is the same as passing a mask of zeros of the shape
    of the scores: the two calls have the same outcome, whatever the
    scores. *)
Theorem no_mask_is_zero_mask (h_t : list vector) enc (lin : list matrix)
    scores :
  Torch.bmm_matvec lin h_t = Ok scores →
  dot_prod_attention h_t enc lin None
  = dot_prod_attention h_t enc lin (Some (map (map (λ _, 0%Z)) scores)).
Proof.
  intros Hs. unfold dot_prod_attention. rewrite Hs. cbn.
  rewrite masked_fill_ok.
  - cbn. rewrite zip_with_fmap_r.
    replace (zip_with (λ x z, masked_row x (map (λ _, 0%Z) z)) scores scores)
      with scores; [done|].
    clear. induction scores as [|s scores IH]; [done|].
    cbn [zip_with]. by rewrite <- IH, masked_row_zero_mask.
  - apply Forall2_fmap_r, Forall_Forall2_diag, Forall_forall.
    intros s _. simpl. by rewrite length_map.
Qed.

Lemma no_mask_is_zero_mask_witness :
  let h_t := [[Fin 1]] in
  let lin := [[[Fin 2]; [Fin 1]]] in
  let enc := [[[Fin 1]; [Fin 3]]] in
  dot_prod_attention h_t enc lin None
  = dot_prod_attention h_t enc lin (Some [[0; 0]]%Z).
Proof.
  intros h_t lin enc.
  exact (no_mask_is_zero_mask h_t enc lin
           [[Fin (2 * 1 + 0); Fin (1 * 1 + 0)]] eq_refl).
Defined.

End attention_unmasked.

(** * The context vector *)

Section context.
Local Open Scope R_scope.
Implicit Types (scores w : list vector) (mask : list (list Z))
  (srow : vector) (mrow : list Z) (enc : list matrix) (e : matrix).

Lemma dot_Fin (ys cs : list R) :
  Torch.dot (map Fin ys) (map Fin cs) = Fin (Rsum (zip_with Rmult ys cs)).
Proof.
  unfold Torch.dot. rewrite <- sum_map_Fin. f_equal.
  revert cs. induction ys as [|y ys IH]; intros [|c cs]; [done..|].
  cbn. by rewrite <- IH.
Qed.

Lemma rectangular_rows e row :
  Torch.rectangular e = true → row ∈ e → length row = Torch.ncols e.
Proof.
  unfold Torch.rectangular. intros Hrect Hrow.
  apply forallb_forall with (x := row) in Hrect.
  - by apply Nat.eqb_eq.
  - by apply list_elem_of_In.
Qed.

Lemma column_finite e (c : nat) :
  Forall (Forall finite) e → Torch.rectangular e = true →
  (c < Torch.ncols e)%nat →
  Torch.column c e = map Fin (real_column c e).
Proof.
  intros Hfin Hrect Hc. unfold Torch.column, real_column.
  rewrite <- list_fmap_compose. apply list_fmap_ext.
  intros i row Hi. simpl.
  pose proof (list_elem_of_lookup_2 _ _ _ Hi) as Hrow.
  destruct (lookup_lt_is_Some_2 row c) as [a Ha].
  { by rewrite (rectangular_rows e row). }
  rewrite Ha. simpl. rewrite Forall_forall in Hfin.
  pose proof (Hfin row Hrow) as Hfr.
  by destruct (Forall_lookup_1 _ _ _ _ Hfr Ha) as [x ->].
Qed.

Lemma real_weights_spec srow mrow :
  Forall finite srow → length srow = length mrow → 0%Z ∈ mrow →
  Torch.softmax_row (masked_row srow mrow) = map Fin (real_weights srow mrow)
  ∧ length (real_weights srow mrow) = length srow
  ∧ Forall (λ y, 0 <= y) (real_weights srow mrow)
  ∧ Rsum (real_weights srow mrow) = 1.
Proof.
  intros Hfin Hlen Hin.
  pose proof (unmasked_exp_sum_pos srow mrow Hlen Hin) as Hpos.
  unfold real_weights. split; [|split; [|split]].
  - rewrite softmax_masked_row by done. by rewrite <- list_fmap_compose.
  - rewrite length_map, length_zip_with. lia.
  - apply Forall_fmap. eapply Forall_impl; [apply unmasked_exp_nonneg|].
    intros r Hr. simpl. apply Rle_mult_inv_pos; [done|lra].
  - rewrite Rsum_scale. unfold unmasked_exp_sum in *. field. lra.
Qed.

(** A weighted sum with weights that are not negative lies between the
    bounds of its terms, scaled by the sum of the weights. *)
Lemma weighted_sum_bounds (lo hi : R) (ys : list R) :
  ∀ cs : list R,
    length ys = length cs →
    Forall (λ y, 0 <= y) ys →
    Forall (λ c, lo <= c <= hi) cs →
    lo * Rsum ys <= Rsum (zip_with Rmult ys cs) <= hi * Rsum ys.
Proof.
  induction ys as [|y ys IH]; intros [|c cs] Hlen Hys Hcs; try done.
  - simpl. lra.
  - apply Forall_cons in Hys as [Hy Hys].
    apply Forall_cons in Hcs as [Hc Hcs].
    injection Hlen as Hlen. specialize (IH cs Hlen Hys Hcs).
    cbn [zip_with Rsum foldr]. fold (Rsum ys).
    fold (Rsum (zip_with Rmult ys cs)). nra.
Qed.

Lemma within_finite (lo hi : R) (a : float) : within lo hi a → finite a.
Proof. intros (x & -> & _). by exists x. Qed.

Lemma real_column_within (lo hi : R) e (c : nat) :
  Forall (Forall (within lo hi)) e → Torch.rectangular e = true →
  (c < Torch.ncols e)%nat →
  Forall (λ x, lo <= x <= hi) (real_column c e).
Proof.
  intros Hin Hrect Hc. unfold real_column. apply Forall_fmap.
  apply Forall_forall. intros row Hrow. simpl.
  destruct (lookup_lt_is_Some_2 row c) as [a Ha].
  { by rewrite (rectangular_rows e row). }
  rewrite Ha. simpl. rewrite Forall_forall in Hin.
  pose proof (Hin row Hrow) as Hr.
  by destruct (Forall_lookup_1 _ _ _ _ Hr Ha) as (x & -> & Hx).
Qed.

(** One row of the context for a masked row of finite scores: every entry
    is a finite value between the bounds of the encoding. *)
Lemma context_row_within (lo hi : R) srow mrow e :
  Forall finite srow → length srow = length mrow → 0%Z ∈ mrow →
  length e = length srow → Torch.rectangular e = true →
  Forall (Forall (within lo hi)) e →
  Forall (within lo hi)
    (context_row (Torch.softmax_row (masked_row srow mrow)) e).
Proof.
  intros Hfin Hlen Hin Hle Hrect Hw.
  destruct (real_weights_spec srow mrow Hfin Hlen Hin)
    as (Hwrow & Hlenw & Hnonneg & Hsum).
  unfold context_row. apply Forall_fmap, Forall_forall.
  intros c Hc%elem_of_seq. simpl.
  rewrite Hwrow, column_finite, dot_Fin; [|
    eapply Forall_impl; [exact Hw|];
    intros row Hr; eapply Forall_impl; [exact Hr|]; apply within_finite
    |done|lia].
  eexists. split; [done|].
  pose proof (weighted_sum_bounds lo hi (real_weights srow mrow)
                (real_column c e)) as Hb.
  rewrite Hsum, !Rmult_1_r in Hb. apply Hb; [|done|].
  - unfold real_column. rewrite length_map. lia.
  - apply real_column_within; [done..|lia].
Qed.

(** Under the conditions of the masked softmax, every entry of the context
    vector lies between the smallest and the largest entry of the encoding:
    the context is a convex combination of the encoding rows. *)
Theorem context_within_bounds (h_t : list vector) enc (lin : list matrix)
    mask scores (lo hi : R) :
  Torch.bmm_matvec lin h_t = Ok scores →
  Forall (Forall finite) scores →
  Forall2 (λ s m, length s = length m) scores mask →
  Forall2 (λ e s, length e = length s ∧ Torch.rectangular e = true)
    enc scores →
  Forall (λ mrow, 0%Z ∈ mrow) mask →
  Forall (Forall (Forall (within lo hi))) enc →
  ∃ ctx w,
    dot_prod_attention h_t enc lin (Some mask) = Ok (ctx, w)
    ∧ Forall2 (λ crow e, length crow = Torch.ncols e
                         ∧ Forall (within lo hi) crow) ctx enc.
Proof.
  intros Hs Hfin Hm He Hz Hw. do 2 eexists.
  split; [by apply attention_masked_run|].
  pose proof (Forall2_length _ _ _ Hm) as Hlm.
  pose proof (Forall2_length _ _ _ He) as Hle.
  apply Forall2_same_length_lookup. split.
  { unfold Torch.softmax.
    rewrite length_zip_with, length_map, length_zip_with. lia. }
  intros b crow e Hcb Heb.
  rewrite lookup_zip_with in Hcb. unfold Torch.softmax in Hcb.
  rewrite list_lookup_fmap, lookup_zip_with, Heb in Hcb.
  destruct (scores !! b) as [srow|] eqn:Hsb; simpl in Hcb; [|done].
  destruct (mask !! b) as [mrow|] eqn:Hmb; simpl in Hcb; [|done].
  injection Hcb as <-.
  pose proof (Forall2_lookup_lr _ _ _ _ _ _ Hm Hsb Hmb) as Hlen.
  pose proof (Forall2_lookup_lr _ _ _ _ _ _ He Heb Hsb) as [Hlen' Hrect].
  split.
  - unfold context_row. by rewrite length_map, length_seq.
  - apply context_row_within; [|done| |done|done|].
    + eapply Forall_lookup_1; eauto.
    + eapply (Forall_lookup_1 _ _ _ _ Hz); eauto.
    + eapply (Forall_lookup_1 _ _ _ _ Hw); eauto.
Qed.

Lemma context_within_bounds_witness :
  let h_t := [[Fin 1]] in
  let lin := [[[Fin 2]; [Fin 1]; [Fin 0]]] in
  let enc := [[[Fin 1]; [Fin 3]; [Fin 2]]] in
  ∃ ctx w,
    dot_prod_attention h_t enc lin (Some [[0; 0; 1]]%Z) = Ok (ctx, w)
    ∧ Forall (Forall (within 1 3)) ctx.
Proof.
  intros h_t lin enc.
  destruct (context_within_bounds h_t enc lin [[0; 0; 1]]%Z
              [[Fin (2 * 1 + 0); Fin (1 * 1 + 0); Fin (0 * 1 + 0)]] 1 3
              eq_refl)
    as (ctx & w & Hrun & Hctx).
  - repeat constructor; by eexists.
  - by repeat constructor.
  - by repeat constructor.
  - by repeat constructor.
  - repeat constructor; eexists; (split; [reflexivity|lra]).
  - exists ctx, w. split; [exact Hrun|].
    clear -Hctx. induction Hctx as [|? ? ? ? [_ H] _ IH]; constructor; done.
Defined.

End context.

(** * Masked positions have no influence *)

Section masked_positions.
Local Open Scope R_scope.
Implicit Types (scores w : list vector) (mask : list (list Z))
  (srow : vector) (mrow : list Z) (enc : list matrix) (e : matrix).

Lemma unmasked_exp_agree srow srow' mrow :
  length srow = length mrow → length srow' = length mrow →
  (∀ j : nat, mrow !! j = Some 0%Z → srow !! j = srow' !! j) →
  zip_with unmasked_exp srow mrow = zip_with unmasked_exp srow' mrow.
Proof.
  intros Hl Hl' Hagree. apply list_eq. intros j.
  rewrite !lookup_zip_with.
  destruct (mrow !! j) as [m|] eqn:Hm.
  - destruct (lookup_lt_is_Some_2 srow j) as [a Ha].
    { rewrite Hl. by eapply lookup_lt_Some. }
    destruct (lookup_lt_is_Some_2 srow' j) as [a' Ha'].
    { rewrite Hl'. by eapply lookup_lt_Some. }
    rewrite Ha, Ha'. simpl. f_equal. unfold unmasked_exp.
    destruct (Z.eqb_spec m 0) as [->|]; [|done].
    specialize (Hagree j Hm). rewrite Ha, Ha' in Hagree.
    by injection Hagree as ->.
  - by destruct (srow !! j), (srow' !! j).
Qed.

Lemma masked_weights_agree srow srow' mrow :
  Forall finite srow → Forall finite srow' →
  length srow = length mrow → length srow' = length mrow →
  0%Z ∈ mrow →
  (∀ j : nat, mrow !! j = Some 0%Z → srow !! j = srow' !! j) →
  Torch.softmax_row (masked_row srow mrow)
  = Torch.softmax_row (masked_row srow' mrow).
Proof.
  intros Hf Hf' Hl Hl' Hin Hagree.
  rewrite !softmax_masked_row by done. unfold unmasked_exp_sum.
  by rewrite (unmasked_exp_agree srow srow' mrow).
Qed.

(** A masked position has weight zero, in real numbers. *)
Lemma real_weights_masked srow mrow (j : nat) (m : Z) (y : R) :
  mrow !! j = Some m → m ≠ 0%Z → real_weights srow mrow !! j = Some y →
  y = 0.
Proof.
  intros Hm Hne Hy. unfold real_weights in Hy.
  rewrite list_lookup_fmap, lookup_zip_with, Hm in Hy.
  destruct (srow !! j) as [a|]; simpl in Hy; [|done].
  injection Hy as <-. unfold unmasked_exp.
  destruct (Z.eqb_spec m 0); [done|]. apply Rdiv_0_l.
Qed.

(** The context row does not depend on the encoding at masked positions. *)
Lemma context_row_agree srow mrow e e' :
  Forall finite srow → length srow = length mrow → 0%Z ∈ mrow →
  length e = length srow → length e' = length srow →
  Torch.rectangular e = true → Torch.rectangular e' = true →
  Forall (Forall finite) e → Forall (Forall finite) e' →
  Torch.ncols e = Torch.ncols e' →
  (∀ j : nat, mrow !! j = Some 0%Z → e !! j = e' !! j) →
  context_row (Torch.softmax_row (masked_row srow mrow)) e
  = context_row (Torch.softmax_row (masked_row srow mrow)) e'.
Proof.
  intros Hfin Hlen Hin Hle Hle' Hrect Hrect' Hfe Hfe' Hcols Hagree.
  destruct (real_weights_spec srow mrow Hfin Hlen Hin)
    as (Hwrow & Hlenw & _ & _).
  unfold context_row. rewrite <- Hcols. apply list_fmap_ext.
  intros i c Hc. apply lookup_seq in Hc as [-> Hc]. simpl.
  rewrite Hwrow, !column_finite, !dot_Fin by (done || lia).
  f_equal. f_equal. apply list_eq. intros j.
  rewrite !lookup_zip_with. unfold real_column. rewrite !list_lookup_fmap.
  destruct (real_weights srow mrow !! j) as [y|] eqn:Hy; [|done]. simpl.
  assert (Hj : (j < length mrow)%nat).
  { apply lookup_lt_Some in Hy. lia. }
  destruct (lookup_lt_is_Some_2 mrow j Hj) as [m Hm].
  destruct (lookup_lt_is_Some_2 e j) as [row Hrow]; [lia|].
  destruct (lookup_lt_is_Some_2 e' j) as [row' Hrow']; [lia|].
  rewrite Hrow, Hrow'. simpl. f_equal.
  destruct (decide (m = 0%Z)) as [->|Hne].
  - specialize (Hagree j Hm). rewrite Hrow, Hrow' in Hagree.
    by injection Hagree as ->.
  - rewrite (real_weights_masked srow mrow j m y Hm Hne Hy). lra.
Qed.

(** The outcome of a masked call depends on the unmasked positions only:
    two calls whose (finite) raw scores and encodings agree wherever the
    mask is 0 return the same context vectors and the same weights, whatever
    the scores and the encodings hold at the masked positions. *)
Theorem masked_positions_ignored (h_t h_t' : list vector) enc enc'
    (lin lin' : list matrix) mask scores scores' :
  Torch.bmm_matvec lin h_t = Ok scores →
  Torch.bmm_matvec lin' h_t' = Ok scores' →
  Forall (Forall finite) scores → Forall (Forall finite) scores' →
  Forall2 (λ s m, length s = length m) scores mask →
  Forall2 (λ s m, length s = length m) scores' mask →
  Forall2 (λ e s, length e = length s ∧ Torch.rectangular e = true)
    enc scores →
  Forall2 (λ e s, length e = length s ∧ Torch.rectangular e = true)
    enc' scores' →
  Forall (Forall (Forall finite)) enc →
  Forall (Forall (Forall finite)) enc' →
  Forall2 (λ e e', Torch.ncols e = Torch.ncols e') enc enc' →
  Forall (λ mrow, 0%Z ∈ mrow) mask →
  (∀ b j : nat, entry mask b j = Some 0%Z →
     entry scores b j = entry scores' b j
     ∧ entry enc b j = entry enc' b j) →
  dot_prod_attention h_t enc lin (Some mask)
  = dot_prod_attention h_t' enc' lin' (Some mask).
Proof.
  intros Hs Hs' Hfin Hfin' Hm Hm' He He' Hfe Hfe' Hcols Hz Hagree.
  rewrite (attention_masked_run h_t enc lin mask scores) by done.
  rewrite (attention_masked_run h_t' enc' lin' mask scores') by done.
  pose proof (Forall2_length _ _ _ Hm) as Hlm.
  pose proof (Forall2_length _ _ _ Hm') as Hlm'.
  pose proof (Forall2_length _ _ _ He) as Hle.
  pose proof (Forall2_length _ _ _ He') as Hle'.
  assert (Hrow : ∀ b srow srow' mrow (j : nat),
    scores !! b = Some srow → scores' !! b = Some srow' →
    mask !! b = Some mrow → mrow !! j = Some 0%Z → srow !! j = srow' !! j).
  { intros b srow srow' mrow j Hsb Hsb' Hmb Hmj.
    destruct (Hagree b j) as [Ha _].
    { unfold entry. by rewrite Hmb. }
    unfold entry in Ha. by rewrite Hsb, Hsb' in Ha. }
  assert (Hw : Torch.softmax (zip_with masked_row scores mask)
               = Torch.softmax (zip_with masked_row scores' mask)).
  { unfold Torch.softmax. apply list_eq. intros b.
    rewrite !list_lookup_fmap, !lookup_zip_with.
    destruct (mask !! b) as [mrow|] eqn:Hmb.
    - destruct (lookup_lt_is_Some_2 scores b) as [srow Hsb].
      { rewrite Hlm. by eapply lookup_lt_Some. }
      destruct (lookup_lt_is_Some_2 scores' b) as [srow' Hsb'].
      { rewrite Hlm'. by eapply lookup_lt_Some. }
      rewrite Hsb, Hsb'. simpl. f_equal.
      apply masked_weights_agree.
      + exact (Forall_lookup_1 _ _ _ _ Hfin Hsb).
      + exact (Forall_lookup_1 _ _ _ _ Hfin' Hsb').
      + by apply (Forall2_lookup_lr _ _ _ _ _ _ Hm Hsb Hmb).
      + by apply (Forall2_lookup_lr _ _ _ _ _ _ Hm' Hsb' Hmb).
      + exact (Forall_lookup_1 _ _ _ _ Hz Hmb).
      + intros j Hmj. by eapply Hrow.
    - by destruct (scores !! b), (scores' !! b). }
  rewrite <- Hw. do 2 f_equal.
  apply list_eq. intros b. rewrite !lookup_zip_with.
  unfold Torch.softmax. rewrite list_lookup_fmap, lookup_zip_with.
  destruct (scores !! b) as [srow|] eqn:Hsb; simpl.
  2:{ done. }
  destruct (mask !! b) as [mrow|] eqn:Hmb; simpl; [|done].
  destruct (lookup_lt_is_Some_2 scores' b) as [srow' Hsb'].
  { rewrite Hlm'. by eapply lookup_lt_Some. }
  destruct (lookup_lt_is_Some_2 enc b) as [e Heb].
  { rewrite Hle. by eapply lookup_lt_Some. }
  destruct (lookup_lt_is_Some_2 enc' b) as [e' Heb'].
  { rewrite Hle', Hlm', <- Hlm. by eapply lookup_lt_Some. }
  rewrite Heb, Heb'. simpl. f_equal.
  pose proof (Forall2_lookup_lr _ _ _ _ _ _ Hm Hsb Hmb) as Hlen.
  pose proof (Forall2_lookup_lr _ _ _ _ _ _ Hm' Hsb' Hmb) as Hlen'.
  pose proof (Forall2_lookup_lr _ _ _ _ _ _ He Heb Hsb) as [Hl1 Hr1].
  pose proof (Forall2_lookup_lr _ _ _ _ _ _ He' Heb' Hsb') as [Hl2 Hr2].
  apply context_row_agree.
  - exact (Forall_lookup_1 _ _ _ _ Hfin Hsb).
  - exact Hlen.
  - exact (Forall_lookup_1 _ _ _ _ Hz Hmb).
  - exact Hl1.
  - cbv beta in *. lia.
  - exact Hr1.
  - exact Hr2.
  - exact (Forall_lookup_1 _ _ _ _ Hfe Heb).
  - exact (Forall_lookup_1 _ _ _ _ Hfe' Heb').
  - exact (Forall2_lookup_lr _ _ _ _ _ _ Hcols Heb Heb').
  - intros j Hmj. destruct (Hagree b j) as [_ Ha].
    { unfold entry. by rewrite Hmb. }
    unfold entry in Ha. by rewrite Heb, Heb' in Ha.
Qed.

Lemma masked_positions_ignored_witness :
  let h_t := [[Fin 1]] in
  let lin := [[[Fin 2]; [Fin 1]; [Fin 0]]] in
  let lin' := [[[Fin 2]; [Fin 1]; [Fin 7]]] in
  let enc := [[[Fin 1]; [Fin 3]; [Fin 2]]] in
  let enc' := [[[Fin 1]; [Fin 3]; [Fin 9]]] in
  dot_prod_attention h_t enc lin (Some [[0; 0; 1]]%Z)
  = dot_prod_attention h_t enc' lin' (Some [[0; 0; 1]]%Z).
Proof.
  intros h_t lin lin' enc enc'.
  apply (masked_positions_ignored h_t h_t enc enc' lin lin' [[0; 0; 1]]%Z
           [[Fin (2 * 1 + 0); Fin (1 * 1 + 0); Fin (0 * 1 + 0)]]
           [[Fin (2 * 1 + 0); Fin (1 * 1 + 0); Fin (7 * 1 + 0)]]).
  - reflexivity.
  - reflexivity.
  - repeat constructor; by eexists.
  - repeat constructor; by eexists.
  - by repeat constructor.
  - by repeat constructor.
  - by repeat constructor.
  - by repeat constructor.
  - repeat constructor; by eexists.
  - repeat constructor; by eexists.
  - by repeat constructor.
  - by repeat constructor.
  - intros [|b] [|[|[|j]]] H; try done; discriminate H.
Defined.

(** * Attention over a batch padded to a common length *)

Lemma Rsum_app (l k : list R) : Rsum (l ++ k) = Rsum l + Rsum k.
Proof.
  induction l as [|x l IH]; simpl; [lra|].
  fold (Rsum (l ++ k)). fold (Rsum l). rewrite IH. lra.
Qed.

(** The weights of a row whose mask is [l] zeros followed by ones: the
    softmax of the first [l] scores, then zeros. *)
Lemma softmax_prefix_row srow (l n : nat) :
  Forall finite srow → length srow = (l + n)%nat → (0 < l)%nat →
  Torch.softmax_row
    (masked_row srow (replicate l 0%Z ++ replicate n 1%Z))
  = Torch.softmax_row (take l srow) ++ replicate n (Fin 0).
Proof.
  intros Hfin Hlen Hl.
  assert (Hm : length srow
               = length (replicate l 0%Z ++ replicate n 1%Z)).
  { by rewrite length_app, !length_replicate. }
  assert (Hin : 0%Z ∈ replicate l 0%Z ++ replicate n 1%Z).
  { apply elem_of_app. left. destruct l; [lia|]. by left. }
  rewrite softmax_masked_row by done.
  assert (Hzip : zip_with unmasked_exp srow
                   (replicate l 0%Z ++ replicate n 1%Z)
                 = map (λ a, Rtrigo_def.exp (real_of a)) (take l srow)
                   ++ replicate n 0).
  { rewrite <- (take_drop l srow) at 1.
    rewrite zip_with_app by (rewrite length_take, length_replicate; lia).
    f_equal.
    - rewrite zip_with_replicate_r by (rewrite length_take; lia).
      done.
    - rewrite zip_with_replicate_r by (rewrite length_drop; lia).
      rewrite <- (fmap_replicate (λ _ : float, 0) n (Fin 0)).
      apply list_eq. intros j. rewrite !list_lookup_fmap.
      destruct (decide (j < n)%nat).
      + rewrite lookup_replicate_2 by done.
        destruct (lookup_lt_is_Some_2 (drop l srow) j) as [a ->];
          [rewrite length_drop; lia|done].
      + rewrite !lookup_ge_None_2;
          [done|rewrite length_replicate; lia|rewrite length_drop; lia]. }
  unfold unmasked_exp_sum. rewrite Hzip, Rsum_app, Rsum_replicate.
  rewrite Rmult_0_r, Rplus_0_r. fold (exp_sum (take l srow)).
  rewrite fmap_app, fmap_replicate, Rdiv_0_l. f_equal.
  rewrite softmax_finite_row by (by apply Forall_take).
  by rewrite <- list_fmap_compose.
Qed.

(** The mask built from the sentence lengths, given to the attention call:
    for positive lengths and finite scores of the shape of the mask, the
    weights of batch element [b] are the softmax of its first [lens[b]]
    scores followed by zeros on the padding positions. *)
Theorem attention_over_lengths (lens : list Z) (mx : Z) (cuda : bool)
    (h_t : list vector) enc (lin : list matrix) scores :
  Forall (λ l, (0 < l)%Z) lens →
  Py.max lens = Ok mx →
  Torch.bmm_matvec lin h_t = Ok scores →
  Forall (Forall finite) scores →
  length scores = length lens →
  Forall (λ s, length s = Z.to_nat mx) scores →
  Forall2 (λ e s, length e = length s ∧ Torch.rectangular e = true)
    enc scores →
  ∃ mask ctx w,
    length_array_to_mask_tensor lens cuda false = Ok mask
    ∧ dot_prod_attention h_t enc lin (Some mask) = Ok (ctx, w)
    ∧ ∀ (b : nat) (l : Z) srow,
        lens !! b = Some l → scores !! b = Some srow →
        w !! b = Some (Torch.softmax_row (take (Z.to_nat l) srow)
                       ++ replicate (Z.to_nat (mx - l)) (Fin 0)).
Proof.
  intros Hpos Hmax Hs Hfin Hlen Hrows He.
  pose proof (py_max_spec lens mx Hmax) as [Hub Hin].
  assert (Hmx : (0 < mx)%Z).
  { rewrite Forall_forall in Hpos. by apply Hpos. }
  set (mask := map (λ l, mask_row false l (replicate (Z.to_nat mx) 0%Z))
                 lens).
  assert (Hshape : Forall2 (λ s m, length s = length m) scores mask).
  { apply Forall2_same_length_lookup. split.
    { unfold mask. by rewrite length_map. }
    intros b s m Hsb Hmb. unfold mask in Hmb.
    rewrite list_lookup_fmap in Hmb.
    destruct (lens !! b) as [l|]; [|done]. injection Hmb as <-.
    unfold mask_row. rewrite slice_assign_length, length_replicate.
    eapply (Forall_lookup_1 _ _ _ _ Hrows); eauto. }
  exists mask. do 2 eexists.
  split; [apply length_array_to_mask_tensor_ok; [done|lia]|].
  split; [by apply attention_masked_run|].
  intros b l srow Hlb Hsb. unfold Torch.softmax.
  rewrite list_lookup_fmap, lookup_zip_with, Hsb. unfold mask.
  rewrite list_lookup_fmap, Hlb.
  pose proof (list_elem_of_lookup_2 _ _ _ Hlb) as Hl.
  rewrite Forall_forall in Hpos. pose proof (Hpos l Hl) as Hl0.
  pose proof (Hub l Hl) as Hlmx.
  cbn [option_fmap option_map fmap mbind option_bind]. f_equal.
  rewrite mask_row_zeros by lia. cbn [valid_marker padding_marker].
  apply softmax_prefix_row.
  - exact (Forall_lookup_1 _ _ _ _ Hfin Hsb).
  - rewrite (Forall_lookup_1 _ _ _ _ Hrows Hsb). lia.
  - lia.
Qed.

Lemma attention_over_lengths_witness :
  let h_t := [[Fin 1]; [Fin 1]] in
  let lin := [[[Fin 2]; [Fin 1]]; [[Fin 3]; [Fin 0]]] in
  let enc := [[[Fin 1]; [Fin 3]]; [[Fin 2]; [Fin 0]]] in
  ∃ mask ctx w,
    length_array_to_mask_tensor [2; 1]%Z false false = Ok mask
    ∧ dot_prod_attention h_t enc lin (Some mask) = Ok (ctx, w)
    ∧ w !! 1%nat
      = Some (Torch.softmax_row [Fin (3 * 1 + 0)] ++ [Fin 0]).
Proof.
  intros h_t lin enc.
  destruct (attention_over_lengths [2; 1]%Z 2 false h_t enc lin
              [[Fin (2 * 1 + 0); Fin (1 * 1 + 0)];
               [Fin (3 * 1 + 0); Fin (0 * 1 + 0)]])
    as (mask & ctx & w & Hmask & Hrun & Hw).
  - by repeat constructor.
  - reflexivity.
  - reflexivity.
  - repeat constructor; by eexists.
  - reflexivity.
  - by repeat constructor.
  - by repeat constructor.
  - exists mask, ctx, w. split; [exact Hmask|]. split; [exact Hrun|].
    exact (Hw 1%nat 1%Z _ eq_refl eq_refl).
Defined.

End masked_positions.

(** * The loss returned by [forward] *)

Section forward_loss.
Implicit Types (σ : store) (tpl : vector) (self : LabelSmoothing.t).

Lemma map_zip_with {A B C D} (g : C → D) (f : A → B → C) (l : list A)
    (k : list B) :
  map g (zip_with f l k) = zip_with (λ x y, g (f x y)) l k.
Proof.
  revert k. induction l as [|x l IH]; intros [|y k]; simpl; [done..|].
  by rewrite IH.
Qed.

Lemma forward_value_closed tpl (c : float) (model_prob : matrix)
    (target : list Z) :
  length target = length model_prob →
  Forall (λ t, (0 ≤ t < Py.len tpl)%Z) target →
  Forall (λ x, length x = length tpl) model_prob →
  forward_value [tpl] c model_prob target
  = Ok (Some [zip_with (row_loss tpl c) model_prob target]).
Proof.
  intros Hlen Ht Hx. unfold forward_value.
  rewrite concat_replicate_singleton, length_replicate, Hlen, Nat.eqb_refl.
  rewrite <- Hlen, scatter_rows_ok by done.
  rewrite same_shape_true.
  - do 3 f_equal. rewrite map_zip_with, zip_with_fmap_r. done.
  - apply Forall2_fmap_r, Forall2_same_length_lookup. split; [done|].
    intros p x t Hp _. simpl. rewrite length_insert.
    exact (Forall_lookup_1 _ _ _ _ Hx Hp).
Qed.

Lemma outcome_ok_inv (r : result nat * store) (v : option matrix) :
  outcome r = Ok v → ∃ l σ', r = (Ok l, σ') ∧ σ' !! l = v.
Proof.
  destruct r as [[l|e] σ']; unfold outcome; simpl; [|done].
  intros [= <-]. eauto.
Qed.

(** [forward] on an input of the right shape, in closed form. *)
Lemma forward_closed self (model_prob : matrix) (target : list Z) σ tpl :
  σ !! LabelSmoothing.one_hot self = Some [tpl] →
  length target = length model_prob →
  Forall (λ t, (0 ≤ t < Py.len tpl)%Z) target →
  Forall (λ x, length x = length tpl) model_prob →
  ∃ loss σ',
    LabelSmoothing.forward self model_prob target σ = (Ok loss, σ')
    ∧ σ' !! loss
      = Some [zip_with (row_loss tpl (LabelSmoothing.confidence self))
                model_prob target]
    ∧ loss ≠ LabelSmoothing.one_hot self
    ∧ σ' !! LabelSmoothing.one_hot self = Some [tpl].
Proof.
  intros Hl Hlen Ht Hx.
  pose proof (forward_outcome self model_prob target σ [tpl] Hl) as Hout.
  rewrite forward_value_closed in Hout by done.
  apply outcome_ok_inv in Hout as (loss & σ' & Hrun & Hloss).
  exists loss, σ'. split; [exact Hrun|]. split; [exact Hloss|].
  destruct (keeps_forward self model_prob target σ [tpl] Hl) as [Hk Hq].
  rewrite Hrun in Hk, Hq. simpl in *. split; [by apply Hq|done].
Qed.

(** On a batch of the right shape (one target inside the vocabulary per row
    of [model_prob], rows as long as the template) [forward] returns a new
    tensor with one loss per row: the sum over the vocabulary of the
    pointwise divergence between the row and the template with
    [confidence] written at the target.  The template is still in place. *)
Theorem forward_returns_row_losses self (model_prob : matrix)
    (target : list Z) σ tpl :
  σ !! LabelSmoothing.one_hot self = Some [tpl] →
  length target = length model_prob →
  Forall (λ t, (0 ≤ t < Py.len tpl)%Z) target →
  Forall (λ x, length x = length tpl) model_prob →
  ∃ loss σ' losses,
    LabelSmoothing.forward self model_prob target σ = (Ok loss, σ')
    ∧ σ' !! loss = Some [losses]
    ∧ length losses = length model_prob
    ∧ (∀ (p : nat) x (t : Z),
         model_prob !! p = Some x → target !! p = Some t →
         losses !! p
         = Some (F.sum (zip_with TorchRef.kl_div_pointwise x
                          (<[Z.to_nat t := LabelSmoothing.confidence self]>
                             tpl))))
    ∧ loss ≠ LabelSmoothing.one_hot self
    ∧ σ' !! LabelSmoothing.one_hot self = Some [tpl].
Proof.
  intros Hl Hlen Ht Hx.
  destruct (forward_closed self model_prob target σ tpl Hl Hlen Ht Hx)
    as (loss & σ' & Hrun & Hloss & Hne & Hkeep).
  exists loss, σ'. eexists. split; [exact Hrun|]. split; [exact Hloss|].
  split; [rewrite length_zip_with; lia|]. split; [|done].
  intros p x t Hp Htp. by rewrite lookup_zip_with, Hp, Htp.
Qed.

End forward_loss.

Section forward_loss_zero.
Local Open Scope R_scope.
Implicit Types (σ : store) (tpl : vector) (self : LabelSmoothing.t).

Lemma kl_div_pointwise_log (a y : float) :
  log_of a y → TorchRef.kl_div_pointwise a y = Fin 0.
Proof.
  intros (xr & yr & -> & -> & Hy & Hlog).
  unfold TorchRef.kl_div_pointwise, TorchRef.xlogy, F.is_zero.
  destruct (Req_dec_T yr 0) as [->|Hne]; cbn.
  - f_equal. lra.
  - destruct (Rlt_dec 0 yr) as [Hpos|Hneg]; [|lra].
    cbn. f_equal. rewrite (Hlog Hpos). lra.
Qed.

Lemma sum_zeros (l : vector) : Forall (λ a, a = Fin 0) l → F.sum l = Fin 0.
Proof.
  induction 1 as [|a l -> _ IH]; [done|].
  rewrite sum_cons, IH. cbn. f_equal. lra.
Qed.

Lemma zip_with_kl_zero (x row : vector) :
  Forall2 log_of x row →
  Forall (λ a, a = Fin 0) (zip_with TorchRef.kl_div_pointwise x row).
Proof.
  induction 1 as [|a y x' row' Hay _ IH]; constructor; [|exact IH].
  by apply kl_div_pointwise_log.
Qed.

(** When every row of [model_prob] holds the logarithm of the smoothed
    distribution of its target (and any finite value where that
    distribution is 0), every loss is 0. *)
Theorem loss_zero_at_smoothed_distribution self (model_prob : matrix)
    (target : list Z) σ tpl :
  σ !! LabelSmoothing.one_hot self = Some [tpl] →
  length target = length model_prob →
  Forall (λ t, (0 ≤ t < Py.len tpl)%Z) target →
  (∀ (p : nat) x (t : Z),
     model_prob !! p = Some x → target !! p = Some t →
     Forall2 log_of x
       (<[Z.to_nat t := LabelSmoothing.confidence self]> tpl)) →
  ∃ loss σ',
    LabelSmoothing.forward self model_prob target σ = (Ok loss, σ')
    ∧ σ' !! loss = Some [replicate (length model_prob) (Fin 0)].
Proof.
  intros Hl Hlen Ht Hlog.
  assert (Hx : Forall (λ x, length x = length tpl) model_prob).
  { apply Forall_lookup_2. intros p x Hp.
    destruct (lookup_lt_is_Some_2 target p) as [t Htp].
    { rewrite Hlen. by eapply lookup_lt_Some. }
    pose proof (Forall2_length _ _ _ (Hlog p x t Hp Htp)) as Hlx.
    by rewrite length_insert in Hlx. }
  destruct (forward_closed self model_prob target σ tpl Hl Hlen Ht Hx)
    as (loss & σ' & Hrun & Hloss & _).
  exists loss, σ'. split; [exact Hrun|]. rewrite Hloss. do 2 f_equal.
  apply list_eq. intros p. rewrite lookup_zip_with.
  destruct (model_prob !! p) as [x|] eqn:Hp; simpl.
  - destruct (lookup_lt_is_Some_2 target p) as [t Htp].
    { rewrite Hlen. by eapply lookup_lt_Some. }
    rewrite Htp. simpl.
    rewrite lookup_replicate_2 by (by eapply lookup_lt_Some).
    f_equal. unfold row_loss. apply sum_zeros.
    apply zip_with_kl_zero. by apply (Hlog p x t).
  - symmetry. apply lookup_ge_None_2. rewrite length_replicate.
    by apply lookup_ge_None.
Qed.

Lemma loss_zero_at_smoothed_distribution_witness :
  ∃ self σ1 loss σ',
    LabelSmoothing.__init__ (Fin 0.4) 3 (Some [0%Z]) ∅ = (Ok self, σ1)
    ∧ LabelSmoothing.forward self
        [[Fin 0; Fin (ln (1 - 0.4)); Fin (ln (0.4 / 1))]] [1%Z] σ1
      = (Ok loss, σ')
    ∧ σ' !! loss = Some [[Fin 0]].
Proof.
  destruct (init_true_dist_run 0.4 3 [0%Z] ∅ [] [])
    as (self & σ1 & _ & _ & Hinit & Hconf & Htpl & _);
    [lia|by repeat constructor|by vm_compute|done|done|].
  destruct (loss_zero_at_smoothed_distribution self
              [[Fin 0; Fin (ln (1 - 0.4)); Fin (ln (0.4 / 1))]] [1%Z] σ1
              _ Htpl eq_refl)
    as (loss & σ' & Hrun & Hloss).
  - repeat constructor. by vm_compute.
  - intros [|p] x t [= <-] [= <-]. rewrite Hconf.
    change (IZR (3 - 1 - Py.len [0%Z])) with 1.
    repeat constructor.
    + exists 0, 0. repeat split; lra.
    + exists (ln (1 - 0.4)), (1 - 0.4). repeat split; lra.
    + exists (ln (0.4 / 1)), (0.4 / 1). repeat split; lra.
  - by exists self, σ1, loss, σ'.
Defined.

End forward_loss_zero.

Lemma forward_returns_row_losses_witness :
  ∃ self σ1 loss σ' losses,
    LabelSmoothing.__init__ (Fin 0.4) 3 (Some [0%Z]) ∅ = (Ok self, σ1)
    ∧ LabelSmoothing.forward self
        [[Fin 0; Fin 0; Fin 0]; [Fin 0; Fin 0; Fin 0]] [1%Z; 2%Z] σ1
      = (Ok loss, σ')
    ∧ σ' !! loss = Some [losses]
    ∧ length losses = 2%nat.
Proof.
  destruct (init_true_dist_run 0.4 3 [0%Z] ∅ [] [])
    as (self & σ1 & _ & _ & Hinit & _ & Htpl & _);
    [lia|by repeat constructor|by vm_compute|done|done|].
  destruct (forward_returns_row_losses self
              [[Fin 0; Fin 0; Fin 0]; [Fin 0; Fin 0; Fin 0]] [1%Z; 2%Z] σ1
              _ Htpl eq_refl)
    as (loss & σ' & losses & Hrun & Hloss & Hlen & _).
  - repeat constructor; by vm_compute.
  - by repeat constructor.
  - by exists self, σ1, loss, σ', losses.
Defined.

(** * Ignored indices: negative indices and duplicates *)

Section ignore_indices.
Local Open Scope Z_scope.
Implicit Types (σ : store) (I : list Z).

Lemma wrap_index_wrap (V idx : Z) :
  - V ≤ idx < V → wrap_index V (wrap V idx) = wrap_index V idx.
Proof.
  intros H. unfold wrap_index, wrap.
  destruct (Z.ltb_spec idx 0) as [Hneg|Hpos].
  - destruct (Z.ltb_spec (idx + V) 0); [lia|done].
  - by destruct (Z.ltb_spec idx 0); [lia|].
Qed.

Lemma template_wrap (sv : float) (V : Z) I :
  Forall (λ idx, - V ≤ idx < V) I →
  template sv V (map (wrap V) I) = template sv V I.
Proof.
  intros Hall. unfold template.
  generalize (replicate (Z.to_nat V) sv) as r.
  induction Hall as [|idx I Hidx _ IH]; intros r; [done|].
  cbn [map foldl]. by rewrite wrap_index_wrap, IH.
Qed.

(** An ignored index may be negative: it then counts from the end of the
    vocabulary, as in any indexed assignment.  Construction with indices in
    [-V, V) has the same outcome as construction with every negative index
    [idx] replaced by [idx + V]. *)
Theorem init_negative_index_wraps (s : float) (V : Z) I σ :
  Forall (λ idx, - V ≤ idx < V) I →
  LabelSmoothing.__init__ s V (Some I) σ
  = LabelSmoothing.__init__ s V (Some (map (wrap V) I)) σ.
Proof.
  intros Hall.
  assert (Hlen : Py.len (map (wrap V) I) = Py.len I).
  { unfold Py.len. by rewrite length_map. }
  destruct (decide (V - 1 - Py.len I = 0)) as [Hd|Hd].
  { rewrite !init_zero_division; [done|simpl; lia|done]. }
  destruct (decide (V < 0)) as [HV|HV].
  { destruct Hall as [|idx I Hidx _]; [done|lia]. }
  rewrite (init_run s V (Some I) σ); [|done|lia|done].
  rewrite (init_run s V (Some (map (wrap V) I)) σ); [|simpl; lia|lia|].
  - cbn [default from_option]. unfold Datatypes.id.
    by rewrite Hlen, template_wrap.
  - cbn [default from_option]. unfold Datatypes.id. apply Forall_fmap. eapply Forall_impl; [exact Hall|].
    intros idx Hidx. cbv beta in Hidx. unfold compose, wrap.
    destruct (Z.ltb_spec idx 0); lia.
Qed.

Lemma init_negative_index_wraps_witness :
  LabelSmoothing.__init__ (Fin 0.4) 5 (Some [-1]) ∅
  = LabelSmoothing.__init__ (Fin 0.4) 5 (Some [4]) ∅.
Proof.
  apply (init_negative_index_wraps (Fin 0.4) 5 [-1] ∅).
  repeat constructor; lia.
Defined.

End ignore_indices.

Section duplicate_indices.
Local Open Scope R_scope.
Implicit Types (σ : store) (I : list Z).

Lemma remove_dups_length_le I : (length (remove_dups I) ≤ length I)%nat.
Proof.
  induction I as [|i I IH]; simpl; [done|].
  case_decide; simpl; lia.
Qed.

Lemma remove_dups_length_lt I :
  ¬ NoDup I → (length (remove_dups I) < length I)%nat.
Proof.
  induction I as [|i I IH]; intros Hnd; simpl.
  - destruct Hnd. constructor.
  - pose proof (remove_dups_length_le I). case_decide as Hin; simpl; [lia|].
    assert (Hnd' : ¬ NoDup I) by (intros ?; apply Hnd; by constructor).
    specialize (IH Hnd'). lia.
Qed.

(** Zeroing is idempotent: the template does not change when repeated
    ignored indices are dropped. *)
Lemma template_remove_dups (x : R) (V : Z) I :
  Forall (λ i, (0 ≤ i < V)%Z) I →
  template (Fin x) V I = template (Fin x) V (remove_dups I).
Proof.
  intros Hall.
  assert (Hall' : Forall (λ i, (0 ≤ i < V)%Z) (remove_dups I)).
  { apply Forall_forall. intros i Hi. apply (proj1 (elem_of_remove_dups _ _)) in Hi.
    rewrite Forall_forall in Hall. by apply Hall. }
  rewrite !template_nonneg by done. f_equal.
  apply list_eq. intros j. rewrite !foldl_insert_lookup.
  destruct (decide (j ∈ map Z.to_nat I)) as [Hin|Hout].
  - rewrite decide_True; [done|].
    apply list_elem_of_fmap in Hin as (i & -> & Hi).
    apply list_elem_of_fmap. exists i. split; [done|].
    by apply elem_of_remove_dups.
  - rewrite decide_False; [done|]. intros Hin. apply Hout.
    apply list_elem_of_fmap in Hin as (i & -> & Hi).
    apply (proj1 (elem_of_remove_dups _ _)) in Hi.
    apply list_elem_of_fmap. by exists i.
Qed.

(** [ignore_indices] is counted with multiplicity.  The smoothing value
    divides by [V - 1 - len(ignore_indices)], so an index listed more than
    once takes mass away: for a target that is not ignored the distribution
    sums to [1 + r * smoothing_value], where [r] is the number of repeated
    entries of the list, and that is 1 only when no index is repeated. *)
Theorem repeated_ignored_index (s : R) (V : Z) I σ0 (model_prob : matrix)
    (target : list Z) :
  0 < s < 1 →
  Forall (λ i, (0 ≤ i < V)%Z) I →
  (V - 1 - Py.len I > 0)%Z →
  length target = length model_prob →
  Forall (λ t, (0 ≤ t < V)%Z ∧ t ∉ I) target →
  let sv := s / IZR (V - 1 - Py.len I) in
  let r := (length I - length (remove_dups I))%nat in
  ∃ self σ1 td σ2 rows,
    LabelSmoothing.__init__ (Fin s) V (Some I) σ0 = (Ok self, σ1)
    ∧ LabelSmoothing.true_dist self model_prob target σ1 = (Ok td, σ2)
    ∧ σ2 !! td = Some rows
    ∧ ∀ (p : nat) (t : Z),
        target !! p = Some t →
        ∃ row,
          rows !! p = Some row
          ∧ F.sum row = Fin (1 + INR r * sv)
          ∧ (¬ NoDup I → F.sum row ≠ Fin 1).
Proof.
  intros Hs HI Hd Hlen Ht sv r.
  assert (HV : (0 ≤ V)%Z) by (unfold Py.len in Hd; lia).
  destruct (init_true_dist_run s V I σ0 model_prob target)
    as (self & σ1 & td & σ2 & Hinit & _ & _ & Hrun & Htd);
    [done|done|lia|done| |].
  { eapply Forall_impl; [exact Ht|]. by intros t [? _]. }
  exists self, σ1, td, σ2. eexists.
  split; [exact Hinit|]. split; [exact Hrun|]. split; [exact Htd|].
  intros p t Hp. eexists.
  split; [by rewrite list_lookup_fmap, Hp|].
  rewrite Forall_forall in Ht.
  destruct (Ht t (list_elem_of_lookup_2 _ _ _ Hp)) as [Hrange Hnot].
  assert (HI' : Forall (λ i, (0 ≤ i < V)%Z) (remove_dups I)).
  { apply Forall_forall. intros i Hi. apply (proj1 (elem_of_remove_dups _ _)) in Hi.
    rewrite Forall_forall in HI. by apply HI. }
  destruct (distribution_row sv (1 - s) V (remove_dups I) t
              (NoDup_remove_dups I) HI' Hrange)
    as (_ & _ & _ & _ & _ & Hsum).
  rewrite decide_False in Hsum by (by rewrite elem_of_remove_dups).
  fold sv. rewrite (template_remove_dups sv V I HI).
  pose proof (remove_dups_length_le I) as Hle.
  assert (Hd' : IZR (V - 1 - Py.len I) ≠ 0).
  { intros ?%eq_IZR_R0. lia. }
  assert (Hsv : 0 < sv).
  { apply Rdiv_lt_0_compat; [lra|]. apply IZR_lt. lia. }
  assert (Hval : (IZR V - IZR (Py.len (remove_dups I))) * sv - sv + (1 - s)
                 = 1 + INR r * sv).
  { unfold r. rewrite minus_INR by done. rewrite !INR_IZR_INZ.
    assert (Hsd : s = sv * IZR (V - 1 - Py.len I)).
    { unfold sv. by field. }
    rewrite Hsd at 1. rewrite !minus_IZR. unfold Py.len. lra. }
  split; [by rewrite Hsum, Hval|].
  intros Hnd Hone. rewrite Hsum, Hval in Hone. injection Hone as Hone.
  pose proof (remove_dups_length_lt I Hnd) as Hlt.
  assert (0 < INR r).
  { unfold r. apply lt_0_INR. lia. }
  nra.
Qed.

Lemma repeated_ignored_index_witness :
  ∃ self σ1 td σ2 rows row,
    LabelSmoothing.__init__ (Fin 0.4) 5 (Some [0; 0]%Z) ∅ = (Ok self, σ1)
    ∧ LabelSmoothing.true_dist self [replicate 5 (Fin 0)] [2%Z] σ1
      = (Ok td, σ2)
    ∧ σ2 !! td = Some rows
    ∧ rows !! 0%nat = Some row
    ∧ F.sum row ≠ Fin 1.
Proof.
  destruct (repeated_ignored_index 0.4 5 [0; 0]%Z ∅
              [replicate 5 (Fin 0)] [2%Z])
    as (self & σ1 & td & σ2 & rows & Hinit & Hrun & Htd & Hrow).
  - lra.
  - by repeat constructor.
  - by vm_compute.
  - reflexivity.
  - repeat constructor; [lia..|].
    intros H. apply elem_of_cons in H as [H|H]; [done|].
    by apply list_elem_of_singleton in H.
  - destruct (Hrow 0%nat 2%Z eq_refl) as (row & Hr & _ & Hne).
    exists self, σ1, td, σ2, rows, row.
    split; [exact Hinit|]. split; [exact Hrun|]. split; [exact Htd|].
    split; [exact Hr|]. apply Hne.
    intros Hnd. apply NoDup_cons in Hnd as [Hin _]. apply Hin. by left.
Defined.

End duplicate_indices.
